(** * Lexicon compilation: disambiguation symbols and the lexicon FST

    A shallow embedding of [speechbrain/decoders/prepare_lang_bpe.py]:
    [add_disambig_symbols], [add_self_loops] and [lexicon_to_fst_no_sil],
    then [write_lexicon], [write_mapping], [generate_id_map],
    [generate_lexicon] and the word loop of [main] in
    [recipes/LibriSpeech/ASR/transformer/generate_lexicon.py].

    Conventions of the embedding.
    - A Python [str] is a [string]; its characters are the code points
      below 256.  Python integers are unbounded: counters that only grow
      from 0 are [nat], state numbers and symbol ids are [Z].
    - A [defaultdict(int)] is a [gmap string nat] read with default 0.
      (Reading a missing key of a defaultdict also stores the default; a
      stored 0 reads back as 0, so the store is left out.)
    - A [Dict[str, int]] is a [gmap string Z]; a missing key raises.
      Where the order of its items counts ([generate_id_map],
      [write_mapping]) a dict is the list of its items.
    - Exceptions are the constructors of [exn]; a function that can raise
      returns a [result]. *)

From stdpp Require Import gmap strings list fin_maps pretty sorting.
From Stdlib Require Import Ascii ZArith Lia Permutation.

Local Open Scope string_scope.
Local Open Scope list_scope.

(** ** Exceptions *)

Inductive exn : Type :=
  | IndexError                        (* list.pop() on an empty list *)
  | KeyError (key : string)           (* d[key] with key absent *)
  | ValueError                        (* unpacking a list of the wrong length *)
  | AssertionError (msg : option string).

Inductive result (A : Type) : Type :=
  | Ok (a : A)
  | Raise (e : exn).
Arguments Ok {A} a.
Arguments Raise {A} e.

(** The error monad; [x ← r; k] runs [k] unless [r] raised. *)
Global Instance result_bind : MBind result := λ A B k r,
  match r with
  | Ok a => k a
  | Raise e => Raise e
  end.

(** A [for] loop whose body can raise: the first exception ends the loop. *)
Fixpoint for_each {S X} (body : S -> X -> result S) (xs : list X) (s : S)
  : result S :=
  match xs with
  | [] => Ok s
  | x :: xs' => s' ← body s x; for_each body xs' s'
  end.

(** ** Strings: [" ".join], [str.split()], [str(int)] *)

(** [str.isspace] on the code points below 256: TAB..CR, FS..US, SPACE,
    NEL (0x85) and NBSP (0xA0). *)
Definition is_space (c : ascii) : bool :=
  let n := nat_of_ascii c in
  (((9 <=? n) && (n <=? 13)) || ((28 <=? n) && (n <=? 32))
   || (n =? 133) || (n =? 160))%nat.

(** [sep.join(l)] *)
Definition join (sep : string) (l : list string) : string :=
  String.concat sep l.

(** [s.split()]: the maximal runs of non-whitespace characters of [s], in
    order.  [split_aux s] also tells whether [s] starts inside a run. *)
Fixpoint split_aux (s : string) : bool * list string :=
  match s with
  | EmptyString => (false, [])
  | String c s' =>
      let '(inside, ws) := split_aux s' in
      if is_space c then (false, ws)
      else match inside, ws with
           | true, w :: ws' => (true, String c w :: ws')
           | _, _ => (true, String c EmptyString :: ws)
           end
  end.

Definition split (s : string) : list string := snd (split_aux s).

(** [str(n)] for a non-negative integer. *)
Definition str (n : nat) : string := pretty n.

(** ** The lexicon *)

(** [Lexicon = List[Tuple[str, List[str]]]] *)
Abbreviation Lexicon := (list (string * list string)).

(** [defaultdict(int)] read. *)
Definition dget (d : gmap string nat) (k : string) : nat :=
  default 0 (d !! k).

(** [l.pop()]: removes the last item; raises on an empty list. *)
Definition pop (l : list string) : result (list string) :=
  match l with
  | [] => Raise IndexError
  | _ => Ok (removelast l)
  end.

(** *** add_disambig_symbols, step (1): the count of each phone sequence *)

Definition count_step (count : gmap string nat) (e : string * list string)
  : gmap string nat :=
  let '(_, prons) := e in
  let k := join " " prons in
  <[k := S (dget count k)]> count.

Definition count_phnseqs (lexicon : Lexicon) : gmap string nat :=
  foldl count_step ∅ lexicon.

(** *** step (2): the left sub-sequences

    [while prons: issubseq[" ".join(prons)] = 1; prons.pop()].  The list
    gets one shorter each round, so [length prons] rounds empty it; the
    loop is written by recursion on that number of rounds. *)
Fixpoint mark_loop (rounds : nat) (prons : list string)
  (issubseq : gmap string nat) : gmap string nat :=
  match rounds with
  | O => issubseq
  | S rounds' =>
      match prons with
      | [] => issubseq
      | _ => mark_loop rounds' (removelast prons)
                       (<[join " " prons := 1]> issubseq)
      end
  end.

Definition mark_step (issubseq : gmap string nat) (e : string * list string)
  : result (gmap string nat) :=
  let '(_, prons) := e in
  prons ← pop prons;
  Ok (mark_loop (length prons) prons issubseq).

Definition mark_subseqs (lexicon : Lexicon) : result (gmap string nat) :=
  for_each mark_step lexicon ∅.

(** *** step (3): the rewriting loop *)

Record assign_state : Type := AssignState {
  ans : Lexicon;
  max_disambig : nat;
  last_used_disambig_symbol_of : gmap string nat
}.

Definition first_allowed_disambig : nat := 1.

Definition assign_step (count issubseq : gmap string nat)
  (st : assign_state) (e : string * list string) : result assign_state :=
  let '(word, prons) := e in
  let phnseq := join " " prons in
  if decide (phnseq = "") then Raise (AssertionError None)
  else if ((dget issubseq phnseq =? 0) && (dget count phnseq =? 1))%nat then
    Ok (AssignState (ans st ++ [(word, prons)]) (max_disambig st)
          (last_used_disambig_symbol_of st))
  else
    let cur_disambig := dget (last_used_disambig_symbol_of st) phnseq in
    let cur_disambig :=
      if (cur_disambig =? 0)%nat then first_allowed_disambig
      else (cur_disambig + 1)%nat in
    let max_disambig' :=
      if (max_disambig st <? cur_disambig)%nat then cur_disambig
      else max_disambig st in
    let last' := <[phnseq := cur_disambig]> (last_used_disambig_symbol_of st) in
    let phnseq' := phnseq +:+ " #" +:+ str cur_disambig in
    Ok (AssignState (ans st ++ [(word, split phnseq')]) max_disambig' last').

Definition add_disambig_symbols (lexicon : Lexicon) : result (Lexicon * nat) :=
  let count := count_phnseqs lexicon in
  issubseq ← mark_subseqs lexicon;
  st ← for_each (assign_step count issubseq) lexicon
          (AssignState [] (first_allowed_disambig - 1) ∅);
  Ok (ans st, max_disambig st).

(** ** The lexicon FST

    An arc is the Python list [[src, dst, ilabel, olabel, score]]; the last
    row of the result is the one-element list [[final_state]].  Both are
    [list Z]. *)

Definition lookup_id (table : gmap string Z) (sym : string) : result Z :=
  match table !! sym with
  | Some i => Ok i
  | None => Raise (KeyError sym)
  end.

Definition assert (b : bool) (msg : option string) : result unit :=
  if b then Ok tt else Raise (AssertionError msg).

(** [[table[i] for i in l]] *)
Fixpoint lookup_ids (table : gmap string Z) (l : list string)
  : result (list Z) :=
  match l with
  | [] => Ok []
  | sym :: l' =>
      i ← lookup_id table sym;
      ids ← lookup_ids table l';
      Ok (i :: ids)
  end.

(** *** add_self_loops

    [states_needs_self_loops] is a Python set, here a [gset Z].  Python
    does not fix the order in which a set is iterated, and the loop at the
    end of the function appends the self-loops in that order.
    [add_self_loops_in order] is the function with the set iterated in the
    order [order] gives; [add_self_loops] takes the order of [elements],
    which need not be the one an interpreter takes when two or more states
    get a self-loop.  The callers sort the arcs by source state, and the
    self-loops sit on different states, so what [lexicon_to_fst_no_sil]
    returns does not depend on the order. *)
Definition scan_arc (states : gset Z) (arc : list Z) : result (gset Z) :=
  match arc with
  | [src; dst; ilabel; olabel; score] =>
      Ok (if decide (olabel ≠ 0%Z) then states ∪ {[src]} else states)
  | _ => Raise ValueError
  end.

Definition add_self_loops_in (order : gset Z -> list Z)
  (arcs : list (list Z))
  (disambig_phone disambig_word : Z) : result (list (list Z)) :=
  states_needs_self_loops ← for_each scan_arc arcs ∅;
  let ans :=
    foldl (fun ans s => ans ++ [[s; s; disambig_phone; disambig_word; 0%Z]])
          [] (order states_needs_self_loops) in
  Ok (arcs ++ ans).

Definition add_self_loops (arcs : list (list Z))
  (disambig_phone disambig_word : Z) : result (list (list Z)) :=
  add_self_loops_in elements arcs disambig_phone disambig_word.

(** Another order of iteration: the states from the smallest up. *)
Definition ascending (states : gset Z) : list Z :=
  merge_sort Z.le (elements states).

(** *** lexicon_to_fst_no_sil *)

Definition loop_state : Z := 0.
Definition eps : Z := 0.

Record fst_state : Type := FstState {
  arcs : list (list Z);
  next_state : Z
}.

(** One round of [for i in range(len(prons) - 1)], on
    [(arcs, cur_state, next_state)]. *)
Definition chain_step (word : Z) (prons : list Z)
  (st : list (list Z) * Z * Z) (i : nat) : list (list Z) * Z * Z :=
  let '(arcs, cur_state, next_state) := st in
  let arcs :=
    if (i =? 0)%nat
    then arcs ++ [[cur_state; next_state; nth i prons 0%Z; word; 0%Z]]
    else arcs ++ [[cur_state; next_state; nth i prons 0%Z; eps; 0%Z]] in
  (arcs, next_state, (next_state + 1)%Z).

(** The body of [for word, prons in lexicon]. *)
Definition entry_step (token2id word2id : gmap string Z)
  (st : fst_state) (e : string * list string) : result fst_state :=
  let '(word, prons) := e in
  _ ← assert (0 <? length prons)%nat
             (Some (word +:+ " has no pronunciations"));
  let cur_state := loop_state in
  word ← lookup_id word2id word;
  prons ← lookup_ids token2id prons;
  let '(arcs, cur_state, next_state) :=
    foldl (chain_step word prons) (arcs st, cur_state, next_state st)
          (seq 0 (length prons - 1)) in
  let i := (length prons - 1)%nat in
  let w := if (i =? 0)%nat then word else eps in
  Ok (FstState (arcs ++ [[cur_state; loop_state; nth i prons 0%Z; w; 0%Z]])
               next_state).

(** Lines 199-228: the reserved symbols are checked, then every entry adds
    its chain of arcs. *)
Definition lexicon_arcs (lexicon : Lexicon) (token2id word2id : gmap string Z)
  : result fst_state :=
  unk ← lookup_id token2id "<unk>";
  _ ← assert (unk =? 0)%Z None;
  e ← lookup_id word2id "<eps>";
  _ ← assert (e =? 0)%Z None;
  for_each (entry_step token2id word2id) lexicon (FstState [] 1).

(** [sorted(arcs, key=lambda arc: arc[0])].  Python's sort is stable: rows
    of equal key keep their order.  Every row built here has a first item;
    the key of an empty row is taken as 0. *)
Definition row_key (arc : list Z) : Z := hd 0%Z arc.

Fixpoint insert_row (arc : list Z) (sorted : list (list Z)) : list (list Z) :=
  match sorted with
  | [] => [arc]
  | arc' :: rest =>
      if (row_key arc <=? row_key arc')%Z then arc :: sorted
      else arc' :: insert_row arc rest
  end.

Definition sorted_by_src (arcs : list (list Z)) : list (list Z) :=
  foldr insert_row [] arcs.

(** Lines 199-241: the sorted rows.  Lines 242-246 print them and hand the
    text to [k2.Fsa.from_str]; see [fsa_text]. *)
Definition lexicon_to_fst_no_sil (lexicon : Lexicon)
  (token2id word2id : gmap string Z) (need_self_loops : bool)
  : result (list (list Z)) :=
  st ← lexicon_arcs lexicon token2id word2id;
  arcs ←
    (if need_self_loops then
       disambig_phone ← lookup_id token2id "#0";
       disambig_word ← lookup_id word2id "#0";
       add_self_loops (arcs st) disambig_phone disambig_word
     else Ok (arcs st));
  let final_state := next_state st in
  let arcs := arcs ++ [[loop_state; final_state; -1; -1; 0]%Z] in
  let arcs := arcs ++ [[final_state]] in
  Ok (sorted_by_src arcs).

(** Lines 242-244: [str] of every item, items joined by a space, rows by
    a newline. *)
Definition newline : string := String (ascii_of_nat 10) EmptyString.

Definition fsa_text (rows : list (list Z)) : string :=
  join newline (map (fun arc => join " " (map pretty arc)) rows).

(** * The remaining functions of the two files *)

(** ** write_lexicon, write_mapping

    The file is opened for writing and gets one [f.write] per item: the
    functions are modelled by the text the file holds when it is closed. *)

Definition entry_line (e : string * list string) : string :=
  let '(word, prons) := e in
  word +:+ " " +:+ join " " prons +:+ newline.

Definition write_lexicon (lexicon : Lexicon) : string :=
  foldl (fun f e => f +:+ entry_line e) "" lexicon.

(** A Python dict keeps its keys in the order they were first set, and
    [d[k] = v] on a key that is there changes its value in place: here
    the list of its items.  [dict_get] is [d[k]]. *)
Fixpoint dict_set (d : list (string * Z)) (k : string) (v : Z)
  : list (string * Z) :=
  match d with
  | [] => [(k, v)]
  | (k', v') :: d' =>
      if decide (k' = k) then (k, v) :: d' else (k', v') :: dict_set d' k v
  end.

Fixpoint dict_get (d : list (string * Z)) (k : string) : result Z :=
  match d with
  | [] => Raise (KeyError k)
  | (k', v') :: d' => if decide (k' = k) then Ok v' else dict_get d' k
  end.

Definition mapping_line (item : string * Z) : string :=
  let '(sym, i) := item in
  sym +:+ " " +:+ pretty i +:+ newline.

Definition write_mapping (sym2id : list (string * Z)) : string :=
  foldl (fun f item => f +:+ mapping_line item) "" sym2id.

(** ** generate_id_map

    [{sym: i for i, sym in enumerate(symbols)}] *)
Definition enumerate {A} (l : list A) : list (nat * A) :=
  imap (fun i x => (i, x)) l.

Definition generate_id_map (symbols : list string) : list (string * Z) :=
  foldl (fun d '(i, sym) => dict_set d sym (Z.of_nat i)) [] (enumerate symbols).

(** The dict as the table [lexicon_to_fst_no_sil] reads. *)
Definition table_of (d : list (string * Z)) : gmap string Z := list_to_map d.

(** ** generate_lexicon

    [sp.encode(words, out_type=str)] is the work of the sentencepiece
    model, which is not part of these files: [encode] stands for it. *)
Definition generate_lexicon (encode : list string -> list (list string))
  (words : list string) : Lexicon :=
  let words_pieces := encode words in
  let lexicon :=
    foldl (fun lexicon '(word, pieces) => lexicon ++ [(word, pieces)])
          [] (zip words words_pieces) in
  lexicon ++ [("<UNK>", ["<unk>"])].

(** ** main (generate_lexicon.py), lines 42-45

    [for w in excluded: if w in words: words.remove(w)];
    [list.remove] takes out the first item equal to its argument. *)
Fixpoint list_remove (w : string) (l : list string) : list string :=
  match l with
  | [] => []
  | x :: l' => if decide (x = w) then l' else x :: list_remove w l'
  end.

Definition excluded : list string :=
  ["<eps>"; "!SIL"; "<SPOKEN_NOISE>"; "<UNK>"; "#0"; "<s>"; "</s>"].

Definition remove_words (excluded words : list string) : list string :=
  foldl (fun words w => if decide (w ∈ words) then list_remove w words
                        else words)
        words excluded.

(** * Notions used in the statements

    Besides the code above, the statements speak of the phone sequences of
    a lexicon, of the arcs a lexicon asks for, and of well-formed input.
    These are plain definitions; the facts about them follow. *)

(** A token as a lexicon file gives it: not empty and without a whitespace
    character. *)
Fixpoint has_space (s : string) : bool :=
  match s with
  | EmptyString => false
  | String c s' => is_space c || has_space s'
  end.

Definition token_ok (t : string) : bool :=
  match t with
  | EmptyString => false
  | _ => negb (has_space t)
  end.

(** The synthetic token [#k]. *)
Definition disambig_symbol (k : nat) : string := "#" +:+ str k.

(** What follows a token in a joined string: nothing, or a whitespace. *)
Definition at_boundary (rest : string) : Prop :=
  match rest with
  | EmptyString => True
  | String c _ => is_space c = true
  end.

(** The phone sequence of an entry, as the code keys it. *)
Definition phnseq_of (e : string * list string) : string := join " " e.2.

(** Number of entries of [lex] whose phone sequence is [k]. *)
Definition occ (k : string) (lex : Lexicon) : nat :=
  length (filter (fun e => phnseq_of e = k) lex).

(** [k] is the phone sequence of a non-empty proper left part of the
    pronunciation of some entry. *)
Definition left_subseq (k : string) (lex : Lexicon) : Prop :=
  exists w q n, (w, q) ∈ lex /\ 0 < n < length q /\ join " " (take n q) = k.

(** The test of step (3) on a phone sequence. *)
Definition keeps (count issubseq : gmap string nat) (k : string) : bool :=
  ((dget issubseq k =? 0) && (dget count k =? 1))%nat.

(** The pronunciation step (3) gives an entry it rewrites with index [idx]. *)
Definition rewritten (k : string) (idx : nat) : list string :=
  split (k +:+ " #" +:+ str idx).

(** The entries the loop appends for [rest], when the entries [pre] were
    processed before, and the indices it uses (0: none). *)
Fixpoint assign_ref (keep : string -> bool) (pre rest : Lexicon) : Lexicon :=
  match rest with
  | [] => []
  | (w, p) :: rest' =>
      let k := join " " p in
      (if keep k then (w, p) else (w, rewritten k (S (occ k pre))))
      :: assign_ref keep (pre ++ [(w, p)]) rest'
  end.

Fixpoint index_ref (keep : string -> bool) (pre rest : Lexicon) : list nat :=
  match rest with
  | [] => []
  | (w, p) :: rest' =>
      let k := join " " p in
      (if keep k then 0 else S (occ k pre))
      :: index_ref keep (pre ++ [(w, p)]) rest'
  end.

(** The per-key counter holds, for a key that is rewritten, the number of
    entries with that key processed so far. *)
Definition counters_ok (keep : string -> bool) (pre : Lexicon)
  (st : assign_state) : Prop :=
  forall k, dget (last_used_disambig_symbol_of st) k
            = if keep k then 0 else occ k pre.

(** A phone sequence that step (3) rewrites: it occurs more than once, or
    it is a left part of a longer one. *)
Definition ambiguous (k : string) (lex : Lexicon) : Prop :=
  occ k lex <> 1 \/ left_subseq k lex.

Definition src_le (a b : list Z) : Prop := (row_key a <= row_key b)%Z.

(** The chain of one pronunciation, following the description of the
    builder: one arc per token, from [cur]; every arc but the last goes to
    the next unused state [next], the last one back to the loop state; the
    first arc puts out [olabel], the others epsilon. *)
Fixpoint chain_ref (cur next olabel : Z) (ids : list Z) : list (list Z) :=
  match ids with
  | [] => []
  | [tok] => [[cur; loop_state; tok; olabel; 0%Z]]
  | tok :: ids' =>
      [cur; next; tok; olabel; 0%Z] :: chain_ref next (next + 1) eps ids'
  end.

(** The chains of all entries, given as (word id, token ids), the first
    unused state being [base]; and the first unused state afterwards. *)
Fixpoint fst_ref (base : Z) (entries : list (Z * list Z)) : list (list Z) :=
  match entries with
  | [] => []
  | (wid, ids) :: entries' =>
      chain_ref loop_state base wid ids
      ++ fst_ref (base + Z.of_nat (length ids - 1)) entries'
  end.

Fixpoint state_after (base : Z) (entries : list (Z * list Z)) : Z :=
  match entries with
  | [] => base
  | (wid, ids) :: entries' =>
      state_after (base + Z.of_nat (length ids - 1)) entries'
  end.

(** An entry and its symbol ids. *)
Definition resolves (token2id word2id : gmap string Z)
  (e : string * list string) (r : Z * list Z) : Prop :=
  let '(word, prons) := e in
  let '(wid, ids) := r in
  prons <> [] /\ word2id !! word = Some wid /\
  Forall2 (fun sym i => token2id !! sym = Some i) prons ids.

Definition olabel_of (arc : list Z) : Z := nth 3 arc 0%Z.

Definition self_loop (disambig_phone disambig_word s : Z) : list Z :=
  [s; s; disambig_phone; disambig_word; 0%Z].

(** State [s] has an arc out of it whose output label is not epsilon. *)
Definition emits (arcs : list (list Z)) (s : Z) : Prop :=
  exists arc, arc ∈ arcs /\ row_key arc = s /\ olabel_of arc <> 0%Z.

(** Every pronunciation has a token, and every token is as a lexicon file
    gives it. *)
Definition lexicon_ok (lex : Lexicon) : bool :=
  forallb (fun e : string * list string =>
             match e.2 with
             | [] => false
             | _ => forallb token_ok e.2
             end) lex.

Definition proper_prefix (p q : list string) : Prop :=
  p `prefix_of` q /\ p <> q.

(** No two entries have the same pronunciation. *)
Definition collision_free (out : Lexicon) : Prop :=
  forall i j e1 e2, i <> j -> out !! i = Some e1 -> out !! j = Some e2 ->
                    e1.2 <> e2.2.

(** No pronunciation is a proper prefix of the pronunciation of another
    entry. *)
Definition prefix_free (out : Lexicon) : Prop :=
  forall i j e1 e2, i <> j -> out !! i = Some e1 -> out !! j = Some e2 ->
                    ~ proper_prefix e1.2 e2.2.

(** The pronunciation [p] is that of exactly one entry. *)
Definition occurs_once (p : list string) (lex : Lexicon) : Prop :=
  length (filter (fun e : string * list string => e.2 = p) lex) = 1.

(** [p] is a proper prefix of the pronunciation of some entry. *)
Definition prefix_of_another (p : list string) (lex : Lexicon) : Prop :=
  exists w q, (w, q) ∈ lex /\ proper_prefix p q.

(** No token of the lexicon is one of the symbols [#1] .. [#m]. *)
Definition symbols_fresh (m : nat) (lex : Lexicon) : Prop :=
  forall k w p, 1 <= k <= m -> (w, p) ∈ lex -> disambig_symbol k ∉ p.

(** ** Scenarios *)

Definition lexicon_A : Lexicon := [("A", ["a"]); ("B", ["a"])].
Definition lexicon_B : Lexicon :=
  [("CAT", ["k"; "a"; "t"]); ("CATS", ["k"; "a"; "t"; "s"])].
Definition lexicon_C : Lexicon := [("CAT", ["k"; "a"; "t"])].

Definition token2id_C : gmap string Z :=
  <["<unk>" := 0%Z]> (<["k" := 1%Z]> (<["a" := 2%Z]> (<["t" := 3%Z]> ∅))).
Definition word2id_C : gmap string Z :=
  <["<eps>" := 0%Z]> (<["CAT" := 1%Z]> ∅).
Definition token2id_D : gmap string Z := <["#0" := 4%Z]> token2id_C.
Definition word2id_D : gmap string Z := <["#0" := 2%Z]> word2id_C.

(** A token that already is a disambiguation symbol. *)
Definition lexicon_sharp : Lexicon :=
  [("A", ["a"]); ("B", ["a"]); ("C", ["a"; "#1"])].

(** Tokens with a space inside: one token ["a b"] against two tokens. *)
Definition lexicon_spaced : Lexicon := [("A", ["a b"]); ("B", ["a"; "b"])].
Definition lexicon_spaced_prefix : Lexicon :=
  [("A", ["a b"]); ("B", ["a"; "b"; "c"])].

(** Two entries, neither pronunciation a prefix of the other. *)
Definition lexicon_two : Lexicon := [("A", ["a"]); ("B", ["b"; "c"])].

(** ** More on the arcs *)

(** The arc at place [i] of a chain of [n] arcs, in closed form. *)
Definition chain_arc (cur next olabel : Z) (n i : nat) (tok : Z) : list Z :=
  [ if (i =? 0)%nat then cur else (next + Z.of_nat i - 1)%Z;
    if (i =? n - 1)%nat then loop_state else (next + Z.of_nat i)%Z;
    tok;
    if (i =? 0)%nat then olabel else eps;
    0%Z ].

(** The terminating arc and the final-state row. *)
Definition closing_rows (final_state : Z) : list (list Z) :=
  [[loop_state; final_state; -1; -1; 0]%Z; [final_state]].

(** The entry has a token, and its word and tokens are in the tables. *)
Definition known (token2id word2id : gmap string Z)
  (e : string * list string) : Prop :=
  e.2 <> [] /\ is_Some (word2id !! e.1) /\
  Forall (fun sym => is_Some (token2id !! sym)) e.2.

(** ** Reading arcs *)

Definition dst_of (arc : list Z) : Z := nth 1 arc 0%Z.
Definition ilabel_of (arc : list Z) : Z := nth 2 arc 0%Z.

(** The arcs lead from state [s] to state [t], each starting where the
    one before ends. *)
Fixpoint is_path (s : Z) (arcs : list (list Z)) (t : Z) : Prop :=
  match arcs with
  | [] => s = t
  | arc :: rest => row_key arc = s /\ is_path (dst_of arc) rest t
  end.

(** Number of tokens of a lexicon. *)
Definition total_tokens (lex : Lexicon) : nat :=
  sum_list (map (fun e : string * list string => length e.2) lex).


(** * Facts *)

(** ** Facts about strings *)

Section strings.
Implicit Types (s t rest : string) (ts : list string).

Lemma append_cons c s t : String c s +:+ t = String c (s +:+ t).
Proof. reflexivity. Qed.

Lemma append_empty_r s : s +:+ "" = s.
Proof. induction s as [|c s IH]; [done|]. by rewrite append_cons, IH. Qed.

Lemma append_assoc s t rest : (s +:+ t) +:+ rest = s +:+ (t +:+ rest).
Proof.
  induction s as [|c s IH]; [done|]. by rewrite !append_cons, IH.
Qed.

Lemma split_aux_boundary rest :
  at_boundary rest -> split_aux rest = (false, split rest).
Proof.
  destruct rest as [|c r]; simpl; [done|].
  intros Hc. unfold split. simpl. rewrite Hc. by destruct (split_aux r).
Qed.

Lemma split_aux_token t rest :
  token_ok t = true -> at_boundary rest ->
  split_aux (t +:+ rest) = (true, t :: split rest).
Proof.
  induction t as [|c t IH]; [done|].
  intros Hok Hb. rewrite append_cons. simpl in *.
  apply negb_true_iff, orb_false_iff in Hok as [Hc Ht].
  destruct t as [|c' t'].
  - change ("" +:+ rest) with rest.
    by rewrite (split_aux_boundary _ Hb), Hc.
  - rewrite IH; [by rewrite Hc | | done].
    simpl in *. by rewrite Ht.
Qed.

Lemma split_space rest : split (" " +:+ rest) = split rest.
Proof.
  change (" " +:+ rest) with (String " " rest).
  unfold split. simpl. by destruct (split_aux rest).
Qed.

Lemma join_cons t t' ts :
  join " " (t :: t' :: ts) = t +:+ " " +:+ join " " (t' :: ts).
Proof. done. Qed.

Lemma join_snoc ts t :
  ts <> [] -> join " " (ts ++ [t]) = join " " ts +:+ " " +:+ t.
Proof.
  induction ts as [|a ts IH]; [done|]. intros _.
  destruct ts as [|b ts]; [done|].
  change ((a :: b :: ts) ++ [t]) with (a :: b :: (ts ++ [t])).
  rewrite !join_cons. change (b :: ts ++ [t]) with ((b :: ts) ++ [t]).
  rewrite IH by done. by rewrite !append_assoc.
Qed.

(** Splitting undoes joining, for tokens of a lexicon file. *)
Lemma split_join ts :
  Forall (fun t => token_ok t = true) ts -> split (join " " ts) = ts.
Proof.
  induction 1 as [|t ts Ht Hts IH]; [done|].
  destruct ts as [|t' ts].
  - unfold join, split. simpl.
    rewrite <-(append_empty_r t) at 1.
    by rewrite split_aux_token.
  - rewrite join_cons. unfold split at 1.
    rewrite split_aux_token; [| done | done].
    cbn [snd]. by rewrite split_space, IH.
Qed.

Lemma join_inj ts1 ts2 :
  Forall (fun t => token_ok t = true) ts1 ->
  Forall (fun t => token_ok t = true) ts2 ->
  join " " ts1 = join " " ts2 -> ts1 = ts2.
Proof.
  intros H1 H2 Heq.
  rewrite <-(split_join ts1), <-(split_join ts2) by done. by rewrite Heq.
Qed.

Lemma join_nonempty ts :
  ts <> [] -> Forall (fun t => token_ok t = true) ts -> join " " ts <> "".
Proof.
  intros Hne Hts Heq. apply Hne.
  rewrite <-(split_join ts) by done. by rewrite Heq.
Qed.

Lemma is_space_digit x : is_space (pretty_N_char x) = false.
Proof. unfold pretty_N_char. by repeat case_match. Qed.

Lemma has_space_pretty_N_go x s :
  has_space (pretty_N_go x s) = has_space s.
Proof.
  revert s. induction (N.lt_wf_0 x) as [x _ IH]; intros s.
  destruct (decide (x = 0%N)) as [->|Hx]; [done|].
  rewrite pretty_N_go_step by lia.
  rewrite IH by (apply N.div_lt; lia).
  simpl. by rewrite is_space_digit.
Qed.

Lemma str_no_space n : has_space (str n) = false.
Proof.
  unfold str, pretty, pretty_nat, pretty, pretty_N.
  case_decide; [done|]. apply has_space_pretty_N_go.
Qed.

Lemma disambig_symbol_ok k : token_ok (disambig_symbol k) = true.
Proof.
  unfold disambig_symbol. change ("#" +:+ str k) with (String "#" (str k)).
  cbn [token_ok has_space]. by rewrite str_no_space.
Qed.

Lemma disambig_symbol_inj k1 k2 :
  disambig_symbol k1 = disambig_symbol k2 -> k1 = k2.
Proof.
  unfold disambig_symbol, str. intros [= H]. by apply (inj pretty).
Qed.

(** The rewritten pronunciation of an entry with well-formed tokens: the
    tokens followed by the disambiguation symbol. *)
Lemma split_disambig ts k :
  ts <> [] -> Forall (fun t => token_ok t = true) ts ->
  split (join " " ts +:+ " #" +:+ str k) = ts ++ [disambig_symbol k].
Proof.
  intros Hne Hts.
  change (" #" +:+ str k) with (" " +:+ disambig_symbol k).
  rewrite <-join_snoc by done.
  apply split_join, Forall_app. split; [done|].
  constructor; [apply disambig_symbol_ok | constructor].
Qed.
End strings.

(** ** Steps (1) and (2): what the two tables hold *)

Section tables.
Implicit Types (lex : Lexicon) (d : gmap string nat) (k : string).

Lemma dget_empty k : dget ∅ k = 0.
Proof. unfold dget. by rewrite lookup_empty. Qed.

Lemma dget_insert_eq d k v : dget (<[k := v]> d) k = v.
Proof. unfold dget. by rewrite lookup_insert_eq. Qed.

Lemma dget_insert_ne d k k' v : k <> k' -> dget (<[k := v]> d) k' = dget d k'.
Proof. intros. unfold dget. by rewrite lookup_insert_ne. Qed.

Lemma occ_nil k : occ k [] = 0.
Proof. done. Qed.

Lemma occ_cons k e lex :
  occ k (e :: lex) = (if decide (phnseq_of e = k) then 1 else 0) + occ k lex.
Proof. unfold occ. rewrite filter_cons. by case_decide. Qed.

Lemma occ_app k lex1 lex2 : occ k (lex1 ++ lex2) = occ k lex1 + occ k lex2.
Proof. unfold occ. by rewrite filter_app, length_app. Qed.

Lemma count_loop_spec lex d k :
  dget (foldl count_step d lex) k = dget d k + occ k lex.
Proof.
  revert d. induction lex as [|[w p] lex IH]; intros d; simpl.
  - rewrite occ_nil. lia.
  - rewrite IH, occ_cons. unfold phnseq_of. simpl.
    case_decide as Hk.
    + subst k. rewrite dget_insert_eq. lia.
    + rewrite dget_insert_ne by done. lia.
Qed.

Lemma count_phnseqs_spec lex k : dget (count_phnseqs lex) k = occ k lex.
Proof. unfold count_phnseqs. by rewrite count_loop_spec, dget_empty. Qed.

(** [length prons] rounds are all the rounds of the [while] loop: more
    rounds change nothing. *)
Lemma mark_loop_rounds n (prons : list string) d :
  length prons <= n -> mark_loop n prons d = mark_loop (length prons) prons d.
Proof.
  revert prons d. induction n as [|n IH]; intros prons d Hn.
  - by destruct prons; [|simpl in Hn; lia].
  - destruct prons as [|a prons]; [done|].
    assert (length (removelast (a :: prons)) = length prons) as Hl.
    { rewrite removelast_firstn_len, length_take. simpl. lia. }
    change (length (a :: prons)) with (S (length prons)) in *.
    cbn [mark_loop]. rewrite IH by lia. by rewrite Hl.
Qed.

(** The [while] loop marks the phone sequence of every non-empty left
    part of the list it starts from, and nothing else. *)
Lemma mark_loop_spec (q : list string) n d k :
  n <= length q ->
  dget (mark_loop n (take n q) d) k <> 0 <->
  dget d k <> 0 \/ exists j, 0 < j <= n /\ join " " (take j q) = k.
Proof.
  revert d. induction n as [|n IH]; intros d Hn.
  - simpl. split; [by left|]. intros [?|(j & ? & _)]; [done | lia].
  - assert (take (S n) q <> []) as Hne.
    { intros Heq. apply (f_equal length) in Heq.
      rewrite length_take_le in Heq by lia. done. }
    assert (removelast (take (S n) q) = take n q) as Hrl.
    { rewrite removelast_firstn_len, length_take.
      replace (Init.Nat.pred (S n `min` length q)) with n by lia.
      rewrite take_take. f_equal. lia. }
    cbn [mark_loop]. destruct (take (S n) q) as [|a l] eqn:Hq; [done|].
    rewrite Hrl, IH by lia. rewrite <-Hq. split.
    + intros [Hd|(j & Hj & <-)].
      * destruct (decide (join " " (take (S n) q) = k)) as [<-|Hk].
        { right. exists (S n). split; [lia | done]. }
        rewrite dget_insert_ne in Hd by done. by left.
      * right. exists j. split; [lia | done].
    + intros [Hd|(j & Hj & <-)].
      * left. destruct (decide (join " " (take (S n) q) = k)) as [<-|Hk].
        { by rewrite dget_insert_eq. }
        by rewrite dget_insert_ne.
      * destruct (decide (j = S n)) as [->|Hj'].
        { left. by rewrite dget_insert_eq. }
        right. exists j. split; [lia | done].
Qed.

Lemma mark_step_spec d w p d' k :
  mark_step d (w, p) = Ok d' ->
  p <> [] /\
  (dget d' k <> 0 <->
   dget d k <> 0 \/ exists n, 0 < n < length p /\ join " " (take n p) = k).
Proof.
  unfold mark_step, pop. destruct p as [|a p]; [done|].
  set (q := removelast (a :: p)). cbn [mbind result_bind].
  intros [= <-]. split; [done|].
  assert (q = take (length q) (a :: p)) as Hq.
  { unfold q. rewrite removelast_firstn_len, length_take.
    f_equal. simpl. lia. }
  assert (length q = length p) as Hlen.
  { unfold q. rewrite removelast_firstn_len, length_take. simpl. lia. }
  rewrite Hq at 2. rewrite mark_loop_spec by (simpl; lia).
  simpl. rewrite Hlen. split.
  - intros [?|(j & ? & ?)]; [by left|]. right. exists j. split; [lia|done].
  - intros [?|(j & ? & ?)]; [by left|]. right. exists j. split; [lia|done].
Qed.

Lemma mark_loop_lexicon lex d d' k :
  for_each mark_step lex d = Ok d' ->
  Forall (fun e => e.2 <> []) lex /\
  (dget d' k <> 0 <-> dget d k <> 0 \/ left_subseq k lex).
Proof.
  revert d. induction lex as [|[w p] lex IH]; intros d; cbn [for_each].
  - intros [= <-]. split; [constructor|]. split; [by left|].
    intros [?|(? & ? & ? & Hin & _)]; [done|]. by apply elem_of_nil in Hin.
  - destruct (mark_step d (w, p)) as [d1|] eqn:H1;
      cbn [mbind result_bind]; [|done].
    intros H2.
    apply (mark_step_spec _ _ _ _ k) in H1 as [Hp H1].
    apply IH in H2 as [Hall H2]. split; [by constructor|].
    rewrite H2, H1. unfold left_subseq. split.
    + intros [[?|(n & ? & ?)]|(w' & q & n & Hin & ? & ?)].
      * by left.
      * right. exists w, p, n. split; [apply elem_of_cons; by left | done].
      * right. exists w', q, n. split; [apply elem_of_cons; by right | done].
    + intros [?|(w' & q & n & Hin & ? & ?)]; [by left; left|].
      apply elem_of_cons in Hin as [[= -> ->]|Hin].
      * left. right. by exists n.
      * right. by exists w', q, n.
Qed.

Lemma mark_subseqs_spec lex d k :
  mark_subseqs lex = Ok d -> dget d k <> 0 <-> left_subseq k lex.
Proof.
  intros H. apply (mark_loop_lexicon _ _ _ k) in H as [_ H].
  rewrite H, dget_empty. split; [intros [?|?]; done | by right].
Qed.

(** Step (2) is where an empty pronunciation is met first: [pop] raises. *)
Lemma mark_loop_lexicon_ok lex d :
  Forall (fun e => e.2 <> []) lex ->
  exists d', for_each mark_step lex d = Ok d'.
Proof.
  intros H. revert d. induction H as [|[w p] lex Hp _ IH]; intros d; simpl.
  - by eexists.
  - destruct p as [|a p]; [done|]. cbn [pop mbind result_bind]. apply IH.
Qed.

Lemma mark_loop_lexicon_raise lex d w :
  (w, []) ∈ lex -> for_each mark_step lex d = Raise IndexError.
Proof.
  revert d. induction lex as [|[w' p] lex IH]; intros d Hin.
  - by apply elem_of_nil in Hin.
  - simpl. destruct p as [|a p]; [done|]. cbn [pop mbind result_bind].
    apply IH. apply elem_of_cons in Hin as [[=]|?]; done.
Qed.
End tables.

(** ** Step (3): what the rewriting loop produces *)

Section assign_loop.
Variables count issubseq : gmap string nat.
Let keep := keeps count issubseq.

Lemma assign_step_spec pre st w p st' :
  counters_ok keep pre st ->
  assign_step count issubseq st (w, p) = Ok st' ->
  let k := join " " p in
  let idx := if keep k then 0 else S (occ k pre) in
  k <> "" /\
  counters_ok keep (pre ++ [(w, p)]) st' /\
  ans st' = ans st ++ [if keep k then (w, p) else (w, rewritten k idx)] /\
  max_disambig st' = max_disambig st `max` idx.
Proof.
  intros Hc. unfold assign_step. case_decide as Hne; [done|].
  fold (keeps count issubseq (join " " p)). fold keep.
  destruct (keep (join " " p)) eqn:Hk; intros [= <-]; cbn zeta.
  - split; [done|]. split; [|split; [done | simpl; lia]].
    intros k. simpl. rewrite Hc, occ_app, occ_cons, occ_nil.
    unfold phnseq_of. simpl. destruct (keep k) eqn:Hk'; [done|].
    case_decide; [congruence | lia].
  - split; [done|]. pose proof (Hc (join " " p)) as Hcur. rewrite Hk in Hcur.
    rewrite Hcur. unfold first_allowed_disambig.
    assert ((if (occ (join " " p) pre =? 0)%nat then 1
             else (occ (join " " p) pre + 1)%nat)
            = S (occ (join " " p) pre)) as ->.
    { destruct (Nat.eqb_spec (occ (join " " p) pre) 0); lia. }
    split; [|split; [done|]].
    + intros k. simpl. rewrite occ_app, occ_cons, occ_nil.
      unfold phnseq_of. simpl. case_decide as Hkk.
      * subst k. rewrite dget_insert_eq, Hk. lia.
      * rewrite dget_insert_ne, Hc by done. destruct (keep k); lia.
    + simpl.
    destruct (Nat.ltb_spec (max_disambig st) (S (occ (join " " p) pre))); lia.
Qed.

Lemma assign_loop_spec rest pre st st' :
  counters_ok keep pre st ->
  for_each (assign_step count issubseq) rest st = Ok st' ->
  Forall (fun e => phnseq_of e <> "") rest /\
  ans st' = ans st ++ assign_ref keep pre rest /\
  max_disambig st' = max_disambig st `max` max_list (index_ref keep pre rest).
Proof.
  revert pre st. induction rest as [|[w p] rest IH]; intros pre st Hc;
    cbn [for_each].
  - intros [= <-]. simpl. rewrite app_nil_r. split; [constructor|].
    split; [done | lia].
  - destruct (assign_step count issubseq st (w, p)) as [st1|] eqn:H1;
      cbn [mbind result_bind]; [|done].
    intros H2.
    apply (assign_step_spec pre) in H1 as (Hne & Hc1 & Ha1 & Hm1); [|done].
    apply (IH _ _ Hc1) in H2 as (Hall & Ha2 & Hm2).
    split; [by constructor|]. split.
    + rewrite Ha2, Ha1, <-app_assoc. simpl.
      by destruct (keep (join " " p)).
    + rewrite Hm2, Hm1. simpl. lia.
Qed.

Lemma assign_loop_ok rest st :
  Forall (fun e => phnseq_of e <> "") rest ->
  exists st', for_each (assign_step count issubseq) rest st = Ok st'.
Proof.
  intros H. revert st.
  induction H as [|[w p] rest Hp _ IH]; intros st; cbn [for_each].
  - by eexists.
  - unfold phnseq_of in Hp. simpl in Hp.
    destruct (assign_step count issubseq st (w, p)) as [st1|e] eqn:H1;
      cbn [mbind result_bind]; [apply IH|].
    exfalso. unfold assign_step in H1. case_decide; [done|].
    by destruct (_ && _).
Qed.

Lemma assign_ref_length pre rest :
  length (assign_ref keep pre rest) = length rest.
Proof.
  revert pre. induction rest as [|[w p] rest IH]; intros pre; simpl;
    [done | by rewrite IH].
Qed.

Lemma assign_ref_lookup pre rest i w p :
  rest !! i = Some (w, p) ->
  let k := join " " p in
  let idx := occ k (pre ++ take (S i) rest) in
  assign_ref keep pre rest !! i
  = Some (if keep k then (w, p) else (w, rewritten k idx)).
Proof.
  revert pre i. induction rest as [|[w' p'] rest IH]; intros pre i; [done|].
  destruct i as [|i]; simpl.
  - intros [= -> ->]. rewrite occ_app, occ_cons, occ_nil.
    unfold phnseq_of. simpl. rewrite decide_True by done.
    by replace (occ (join " " p) pre + (1 + 0)) with (S (occ (join " " p) pre))
      by lia.
  - intros Hi. rewrite (IH _ _ Hi). by rewrite <-app_assoc.
Qed.

Lemma index_ref_lookup pre rest i w p :
  rest !! i = Some (w, p) ->
  let k := join " " p in
  index_ref keep pre rest !! i
  = Some (if keep k then 0 else occ k (pre ++ take (S i) rest)).
Proof.
  revert pre i. induction rest as [|[w' p'] rest IH]; intros pre i; [done|].
  destruct i as [|i]; simpl.
  - intros [= -> ->]. rewrite occ_app, occ_cons, occ_nil.
    unfold phnseq_of. simpl. rewrite decide_True by done.
    by replace (occ (join " " p) pre + (1 + 0)) with (S (occ (join " " p) pre))
      by lia.
  - intros Hi. rewrite (IH _ _ Hi). by rewrite <-app_assoc.
Qed.

Lemma index_ref_length pre rest :
  length (index_ref keep pre rest) = length rest.
Proof.
  revert pre. induction rest as [|[w p] rest IH]; intros pre; simpl;
    [done | by rewrite IH].
Qed.
End assign_loop.

(** ** add_disambig_symbols as a whole *)

Section add_disambig_symbols_facts.
Implicit Types (lex out : Lexicon) (k : string).

Lemma keeps_true lex d k :
  mark_subseqs lex = Ok d ->
  keeps (count_phnseqs lex) d k = true <->
  occ k lex = 1 /\ ~ left_subseq k lex.
Proof.
  intros Hd. unfold keeps.
  rewrite andb_true_iff, !Nat.eqb_eq, count_phnseqs_spec.
  rewrite <-(mark_subseqs_spec lex d k Hd).
  destruct (dget d k); intuition lia.
Qed.

Lemma keeps_false lex d k :
  mark_subseqs lex = Ok d ->
  keeps (count_phnseqs lex) d k = false <-> ambiguous k lex.
Proof.
  intros Hd. rewrite <-not_true_iff_false, (keeps_true lex d k Hd).
  unfold ambiguous. rewrite <-(mark_subseqs_spec lex d k Hd).
  destruct (decide (occ k lex = 1)), (decide (dget d k = 0)); intuition lia.
Qed.

Lemma occ_take_pos lex i e :
  lex !! i = Some e -> 1 <= occ (phnseq_of e) (take (S i) lex).
Proof.
  intros Hi. rewrite (take_S_r _ _ _ Hi), occ_app, occ_cons.
  rewrite decide_True by done. lia.
Qed.

Lemma occ_take_le lex i k : occ k (take i lex) <= occ k lex.
Proof.
  rewrite <-(take_drop i lex) at 2. rewrite occ_app. lia.
Qed.

(** The function returns exactly when both loops run through; the result
    is then the reference list. *)
Lemma add_disambig_symbols_unfold lex out m :
  add_disambig_symbols lex = Ok (out, m) ->
  exists d,
    mark_subseqs lex = Ok d /\
    Forall (fun e => phnseq_of e <> "") lex /\
    out = assign_ref (keeps (count_phnseqs lex) d) [] lex /\
    m = max_list (index_ref (keeps (count_phnseqs lex) d) [] lex).
Proof.
  unfold add_disambig_symbols.
  destruct (mark_subseqs lex) as [d|] eqn:Hd; cbn [mbind result_bind]; [|done].
  destruct (for_each _ lex _) as [st|] eqn:Hst; cbn [mbind result_bind];
    [|done].
  intros [= <- <-]. exists d. split; [done|].
  apply (assign_loop_spec _ _ _ []) in Hst as (Hall & Ha & Hm).
  - by simpl in *.
  - intros k. simpl. rewrite dget_empty, occ_nil. by destruct (keeps _ _ _).
Qed.

Lemma add_disambig_symbols_ok lex :
  Forall (fun e => e.2 <> [] /\ phnseq_of e <> "") lex ->
  exists out m, add_disambig_symbols lex = Ok (out, m).
Proof.
  intros H. unfold add_disambig_symbols.
  destruct (mark_loop_lexicon_ok lex ∅) as [d Hd].
  { eapply Forall_impl; [done|]. by intros ? [? _]. }
  unfold mark_subseqs. rewrite Hd. cbn [mbind result_bind].
  edestruct (assign_loop_ok (count_phnseqs lex) d lex) as [st Hst].
  { eapply Forall_impl; [done|]. by intros ? [_ ?]. }
  rewrite Hst. cbn [mbind result_bind]. by eexists _, _.
Qed.

Lemma add_disambig_symbols_length lex out m :
  add_disambig_symbols lex = Ok (out, m) -> length out = length lex.
Proof.
  intros (d & _ & _ & -> & _)%add_disambig_symbols_unfold.
  apply assign_ref_length.
Qed.

(** Entry by entry: an unambiguous entry is kept; an ambiguous one is
    rewritten with the number of entries of the same phone sequence met
    so far, itself included. *)
Lemma add_disambig_symbols_lookup lex out m i w p :
  add_disambig_symbols lex = Ok (out, m) ->
  lex !! i = Some (w, p) ->
  let k := join " " p in
  let idx := occ k (take (S i) lex) in
  (occ k lex = 1 /\ ~ left_subseq k lex /\ out !! i = Some (w, p)) \/
  (ambiguous k lex /\ out !! i = Some (w, rewritten k idx) /\ 1 <= idx <= m).
Proof.
  intros (d & Hd & _ & -> & ->)%add_disambig_symbols_unfold Hi k idx.
  rewrite (assign_ref_lookup _ _ [] lex i w p Hi). fold k.
  destruct (keeps (count_phnseqs lex) d k) eqn:Hk.
  - left. apply (keeps_true lex d k Hd) in Hk as [? ?]. done.
  - right. apply (keeps_false lex d k Hd) in Hk. split; [done|].
    split; [done|]. split; [apply (occ_take_pos lex i (w, p) Hi)|].
    apply max_list_elem_of_le, list_elem_of_lookup. exists i.
    rewrite (index_ref_lookup _ _ [] lex i w p Hi). fold k.
    apply (keeps_false lex d k Hd) in Hk. by rewrite Hk.
Qed.

(** The returned maximum is 0 or an index that was handed out. *)
Lemma add_disambig_symbols_max lex out m :
  add_disambig_symbols lex = Ok (out, m) ->
  m = 0 \/
  exists i w p, lex !! i = Some (w, p) /\ ambiguous (join " " p) lex /\
                occ (join " " p) (take (S i) lex) = m.
Proof.
  intros (d & Hd & _ & -> & ->)%add_disambig_symbols_unfold.
  set (ns := index_ref _ [] lex).
  destruct (decide (max_list ns = 0)) as [?|Hm]; [by left | right].
  assert (max_list ns ∈ ns) as Hin.
  { apply max_list_elem_of. intros Hnil. by rewrite Hnil in Hm. }
  apply list_elem_of_lookup in Hin as [i Hi].
  assert (i < length lex) as Hlt.
  { apply lookup_lt_Some in Hi. unfold ns in Hi.
    by rewrite index_ref_length in Hi. }
  apply lookup_lt_is_Some in Hlt as [[w p] Hwp].
  exists i, w, p. split; [done|].
  unfold ns in Hi. rewrite (index_ref_lookup _ _ [] lex i w p Hwp) in Hi.
  fold ns in Hi. simpl in Hi.
  destruct (keeps _ d (join " " p)) eqn:Hk; [congruence|].
  apply (keeps_false lex d _ Hd) in Hk. split; [done|]. congruence.
Qed.

(** An empty pronunciation makes [pop] raise in step (2), before the
    assertion of step (3) is reached. *)
Lemma add_disambig_symbols_raise lex w :
  (w, []) ∈ lex -> add_disambig_symbols lex = Raise IndexError.
Proof.
  intros Hin. unfold add_disambig_symbols, mark_subseqs.
  by rewrite (mark_loop_lexicon_raise lex ∅ w Hin).
Qed.
End add_disambig_symbols_facts.

(** ** The sort *)

Section sorting.
Implicit Types (arc : list Z) (l : list (list Z)).

Lemma insert_row_perm arc l : insert_row arc l ≡ₚ arc :: l.
Proof.
  induction l as [|arc' l IH]; simpl; [done|].
  destruct (_ <=? _)%Z; [done|]. rewrite IH. apply Permutation_swap.
Qed.

Lemma sorted_by_src_perm l : sorted_by_src l ≡ₚ l.
Proof.
  induction l as [|arc l IH]; simpl; [done|].
  by rewrite insert_row_perm, IH.
Qed.

Lemma insert_row_sorted arc l :
  StronglySorted src_le l -> StronglySorted src_le (insert_row arc l).
Proof.
  induction 1 as [|arc' l Hl IH Hall]; simpl.
  - repeat constructor.
  - destruct (Z.leb_spec (row_key arc) (row_key arc')) as [Hle|Hgt].
    + constructor; [by constructor|]. constructor; [done|].
      eapply Forall_impl; [done|]. unfold src_le. intros; simpl in *; lia.
    + constructor; [done|]. rewrite insert_row_perm.
      constructor; [unfold src_le; lia | done].
Qed.

Lemma sorted_by_src_sorted l : StronglySorted src_le (sorted_by_src l).
Proof.
  induction l as [|arc l IH]; simpl; [constructor|].
  by apply insert_row_sorted.
Qed.

(** Rows with the same key keep the order they came in. *)
Lemma insert_row_stable arc l (s : Z) :
  filter (fun row => row_key row = s) (insert_row arc l)
  = filter (fun row => row_key row = s) (arc :: l).
Proof.
  induction l as [|arc' l IH]; simpl; [done|].
  destruct (Z.leb_spec (row_key arc) (row_key arc')) as [Hle|Hgt]; [done|].
  rewrite (filter_cons _ arc'), IH, !filter_cons.
  destruct (decide (row_key arc' = s)) as [Hs'|Hs'];
    destruct (decide (row_key arc = s)) as [Hs|Hs]; try done.
  lia.
Qed.

Lemma sorted_by_src_stable l (s : Z) :
  filter (fun row => row_key row = s) (sorted_by_src l)
  = filter (fun row => row_key row = s) l.
Proof.
  induction l as [|arc l IH]; simpl; [done|].
  by rewrite insert_row_stable, !filter_cons, IH.
Qed.

(** A row whose key is above all the others, put last, stays last. *)
Lemma insert_row_snoc arc l top :
  (row_key arc < row_key top)%Z ->
  insert_row arc (l ++ [top]) = insert_row arc l ++ [top].
Proof.
  intros Hlt. induction l as [|arc' l IH]; simpl.
  - destruct (Z.leb_spec (row_key arc) (row_key top)); [done | lia].
  - destruct (_ <=? _)%Z; [done|]. by rewrite IH.
Qed.

Lemma sorted_by_src_snoc l top :
  Forall (fun arc => (row_key arc < row_key top)%Z) l ->
  sorted_by_src (l ++ [top]) = sorted_by_src l ++ [top].
Proof.
  induction 1 as [|arc l Hlt _ IH]; simpl; [done|].
  by rewrite IH, insert_row_snoc.
Qed.
End sorting.

(** ** The arcs of the lexicon, entry by entry *)

Section arcs.
Variables token2id word2id : gmap string Z.

Lemma lookup_id_Ok (table : gmap string Z) sym i :
  lookup_id table sym = Ok i <-> table !! sym = Some i.
Proof.
  unfold lookup_id. destruct (table !! sym); split; intros [=]; by subst.
Qed.

Lemma lookup_ids_Ok (table : gmap string Z) l ids :
  lookup_ids table l = Ok ids <->
  Forall2 (fun sym i => table !! sym = Some i) l ids.
Proof.
  revert ids. induction l as [|sym l IH]; intros ids; simpl.
  - split; [intros [= <-]; constructor | by intros ->%Forall2_nil_inv_l].
  - unfold lookup_id. destruct (table !! sym) as [i|] eqn:Hi;
      cbn [mbind result_bind].
    + destruct (lookup_ids table l) as [ids'|] eqn:Hl; cbn [mbind result_bind].
      * split.
        { intros [= <-]. constructor; [done|]. by apply IH. }
        intros (i' & ids2 & Hi' & H2 & ->)%Forall2_cons_inv_l.
        apply IH in H2. congruence.
      * split; [done|].
        intros (i' & ids2 & Hi' & H2 & ->)%Forall2_cons_inv_l.
        by apply IH in H2.
    + split; [done|].
      intros (i' & ids2 & Hi' & H2 & ->)%Forall2_cons_inv_l. congruence.
Qed.

(** The index loop and the last arc together build the chain. *)
Lemma chain_loop wid (ids : list Z) m k a c n :
  (k + m = length ids - 1)%nat -> ids <> [] ->
  let '(a', c', n') := foldl (chain_step wid ids) (a, c, n) (seq k m) in
  let i := (length ids - 1)%nat in
  a' ++ [[c'; loop_state; nth i ids 0%Z;
          if (i =? 0)%nat then wid else eps; 0%Z]]
  = a ++ chain_ref c n (if (k =? 0)%nat then wid else eps) (drop k ids)
  /\ n' = (n + Z.of_nat m)%Z.
Proof.
  intros Hkm Hne. revert k a c n Hkm.
  induction m as [|m IH]; intros k a c n Hkm.
  - simpl. replace (length ids - 1)%nat with k by lia.
    assert (k < length ids)%nat as Hk.
    { destruct ids; [done | simpl in *; lia]. }
    destruct (lookup_lt_is_Some_2 ids k Hk) as [tok Htok].
    rewrite (drop_S _ _ _ Htok), (drop_ge ids (S k)) by lia.
    rewrite (nth_lookup_Some _ _ _ _ Htok). simpl. split; [done | lia].
  - cbn [seq foldl]. unfold chain_step at 2.
    assert (k < length ids)%nat as Hk by lia.
    destruct (lookup_lt_is_Some_2 ids k Hk) as [tok Htok].
    assert (S k < length ids)%nat as Hk' by lia.
    destruct (lookup_lt_is_Some_2 ids (S k) Hk') as [tok' Htok'].
    specialize (IH (S k)
      (if (k =? 0)%nat then a ++ [[c; n; nth k ids 0%Z; wid; 0%Z]]
       else a ++ [[c; n; nth k ids 0%Z; eps; 0%Z]]) n (n + 1)%Z).
    destruct (foldl _ _ (seq (S k) m)) as [[a' c'] n'].
    destruct IH as [IH1 IH2]; [lia|]. split; [|lia].
    rewrite IH1. rewrite (drop_S _ _ _ Htok), (drop_S _ _ _ Htok').
    rewrite (nth_lookup_Some _ _ _ _ Htok).
    cbn [chain_ref Nat.eqb].
    destruct (k =? 0)%nat; by rewrite <-app_assoc.
Qed.

Lemma entry_step_spec st word prons st' :
  entry_step token2id word2id st (word, prons) = Ok st' ->
  exists wid ids,
    resolves token2id word2id (word, prons) (wid, ids) /\
    arcs st' = arcs st ++ chain_ref loop_state (next_state st) wid ids /\
    next_state st' = (next_state st + Z.of_nat (length ids - 1))%Z.
Proof.
  unfold entry_step, assert.
  destruct (Nat.ltb_spec 0 (length prons)) as [Hlen|?];
    cbn [mbind result_bind]; [|done].
  destruct (lookup_id word2id word) as [wid|] eqn:Hw;
    cbn [mbind result_bind]; [|done].
  destruct (lookup_ids token2id prons) as [ids|] eqn:Hids;
    cbn [mbind result_bind]; [|done].
  apply lookup_id_Ok in Hw. apply lookup_ids_Ok in Hids.
  assert (length ids = length prons) as Hl
  by (symmetry; by eapply Forall2_length).
  assert (ids <> []) as Hne by (destruct ids; [simpl in *; lia | done]).
  pose proof (chain_loop wid ids (length ids - 1) 0 (arcs st) loop_state
                (next_state st) eq_refl Hne) as Hloop.
  destruct (foldl _ _ _) as [[a' c'] n'].
  destruct Hloop as [Ha Hn]. intros [= <-]. exists wid, ids.
  split; [|split; [by rewrite Ha | done]].
  unfold resolves. split; [|done]. destruct prons; [simpl in *; lia | done].
Qed.

Lemma entries_loop_spec lex st st' :
  for_each (entry_step token2id word2id) lex st = Ok st' ->
  exists entries,
    Forall2 (resolves token2id word2id) lex entries /\
    arcs st' = arcs st ++ fst_ref (next_state st) entries /\
    next_state st' = state_after (next_state st) entries.
Proof.
  revert st. induction lex as [|[word prons] lex IH]; intros st;
    cbn [for_each].
  - intros [= <-]. exists []. simpl. by rewrite app_nil_r.
  - destruct (entry_step _ _ st _) as [st1|] eqn:H1;
      cbn [mbind result_bind]; [|done].
    intros H2. apply entry_step_spec in H1 as (wid & ids & Hr & Ha & Hn).
    apply IH in H2 as (entries & Hrs & Ha2 & Hn2).
    exists ((wid, ids) :: entries). split; [by constructor|].
    simpl. rewrite Ha2, Hn2, Ha, Hn, <-app_assoc. done.
Qed.

Lemma lexicon_arcs_spec lex st :
  lexicon_arcs lex token2id word2id = Ok st ->
  token2id !! "<unk>" = Some 0%Z /\ word2id !! "<eps>" = Some 0%Z /\
  exists entries,
    Forall2 (resolves token2id word2id) lex entries /\
    arcs st = fst_ref 1 entries /\
    next_state st = state_after 1 entries.
Proof.
  unfold lexicon_arcs, assert.
  destruct (lookup_id token2id "<unk>") as [u|] eqn:Hu;
    cbn [mbind result_bind]; [|done].
  destruct (Z.eqb_spec u 0) as [->|?]; cbn [mbind result_bind]; [|done].
  destruct (lookup_id word2id "<eps>") as [e|] eqn:He;
    cbn [mbind result_bind]; [|done].
  destruct (Z.eqb_spec e 0) as [->|?]; cbn [mbind result_bind]; [|done].
  intros H. apply lookup_id_Ok in Hu, He.
  split; [done|]. split; [done|].
  by apply entries_loop_spec in H.
Qed.
End arcs.

(** ** Self-loops *)

Section self_loops.
Implicit Types (l : list (list Z)) (states : gset Z).

Lemma scan_loop_spec l states states' :
  for_each scan_arc l states = Ok states' ->
  forall s, s ∈ states' <-> s ∈ states \/ emits l s.
Proof.
  revert states. induction l as [|arc l IH]; intros states; cbn [for_each].
  - intros [= <-] s. split; [by left|].
    intros [?|(? & Hin & _)]; [done|]. by apply elem_of_nil in Hin.
  - destruct (scan_arc states arc) as [states1|] eqn:H1;
      cbn [mbind result_bind]; [|done].
    intros H2 s. rewrite (IH _ H2 s). clear IH H2.
    destruct arc as [|src [|dst [|il [|ol [|sc [|x arc]]]]]]; try done.
    simpl in H1. injection H1 as <-. unfold emits. split.
    + intros [Hs|(a & Hin & ? & ?)].
      * case_decide as Hol; [|by left].
        apply elem_of_union in Hs as [?|Hs%elem_of_singleton]; [by left|].
        subst s. right. eexists. split; [by left|]. done.
      * right. exists a. split; [by right | done].
    + intros [Hs|(a & Hin & Hk & Ho)].
      * left. case_decide; [apply elem_of_union; by left | done].
      * apply elem_of_cons in Hin as [->|Hin].
        { left. unfold olabel_of, row_key in *. simpl in *.
          rewrite decide_True by done. subst s.
          apply elem_of_union. right. by apply elem_of_singleton. }
        right. by exists a.
Qed.

Lemma scan_loop_ok l states :
  Forall (fun arc => length arc = 5) l ->
  exists states', for_each scan_arc l states = Ok states'.
Proof.
  intros H. revert states.
  induction H as [|arc l Hlen _ IH]; intros states; cbn [for_each].
  - by eexists.
  - destruct arc as [|src [|dst [|il [|ol [|sc [|x arc]]]]]]; try done.
    cbn [scan_arc mbind result_bind]. apply IH.
Qed.

Lemma append_loop {A B} (f : A -> B) (xs : list A) (acc : list B) :
  foldl (fun ans x => ans ++ [f x]) acc xs = acc ++ map f xs.
Proof.
  revert acc. induction xs as [|x xs IH]; intros acc; simpl.
  - by rewrite app_nil_r.
  - by rewrite IH, <-app_assoc.
Qed.

(** One self-loop for each state with a non-epsilon output, whatever the
    order the set gives them in. *)
Lemma add_self_loops_in_spec (order : gset Z -> list Z) l dp dw res :
  (forall states, order states ≡ₚ elements states) ->
  add_self_loops_in order l dp dw = Ok res ->
  exists ss : list Z,
    NoDup ss /\ (forall s, s ∈ ss <-> emits l s) /\
    res = l ++ map (self_loop dp dw) ss.
Proof.
  intros Horder. unfold add_self_loops_in.
  destruct (for_each scan_arc l ∅) as [states|] eqn:Hscan;
    cbn [mbind result_bind]; [|done].
  intros [= <-]. exists (order states).
  split; [rewrite Horder; apply NoDup_elements|]. split.
  - intros s.
    rewrite Horder, elem_of_elements, (scan_loop_spec _ _ _ Hscan s).
    split; [intros [?|?]; [set_solver | done] | by right].
  - by rewrite (append_loop (self_loop dp dw)).
Qed.

Lemma add_self_loops_spec l dp dw res :
  add_self_loops l dp dw = Ok res ->
  exists ss : list Z,
    NoDup ss /\ (forall s, s ∈ ss <-> emits l s) /\
    res = l ++ map (self_loop dp dw) ss.
Proof. by apply add_self_loops_in_spec. Qed.

Lemma add_self_loops_ok l dp dw :
  Forall (fun arc => length arc = 5) l ->
  exists res, add_self_loops l dp dw = Ok res.
Proof.
  intros H. unfold add_self_loops, add_self_loops_in.
  destruct (scan_loop_ok l ∅ H) as [states ->].
  cbn [mbind result_bind]. by eexists.
Qed.
End self_loops.

(** ** Shape of the arcs: five items, a source below the final state *)

Section shape.
Implicit Types (ids : list Z) (entries : list (Z * list Z)).

Lemma chain_ref_shape cur next olabel ids :
  Forall (fun arc => length arc = 5 /\
            (row_key arc = cur \/
             (next <= row_key arc < next + Z.of_nat (length ids - 1))%Z))
         (chain_ref cur next olabel ids).
Proof.
  revert cur next olabel. induction ids as [|tok ids IH]; intros cur next ol.
  - constructor.
  - destruct ids as [|tok' ids].
    + repeat constructor.
    + cbn [chain_ref]. constructor; [split; [done | by left]|].
      eapply Forall_impl; [apply IH|].
      intros arc [Hl Hk]. split; [done|]. right.
      cbn [length] in *. lia.
Qed.

Lemma state_after_ge base entries : (base <= state_after base entries)%Z.
Proof.
  revert base. induction entries as [|[wid ids] entries IH]; intros base;
    simpl; [lia|].
  specialize (IH (base + Z.of_nat (length ids - 1))%Z). lia.
Qed.

Lemma fst_ref_shape base entries :
  (1 <= base)%Z ->
  Forall (fun arc => length arc = 5 /\
            (0 <= row_key arc < state_after base entries)%Z)
         (fst_ref base entries).
Proof.
  revert base. induction entries as [|[wid ids] entries IH]; intros base Hb.
  - constructor.
  - simpl. apply Forall_app. split.
    + eapply Forall_impl; [apply chain_ref_shape|].
      intros arc [Hl Hk]. split; [done|].
      pose proof (state_after_ge (base + Z.of_nat (length ids - 1)) entries).
      unfold loop_state in Hk. lia.
    + apply IH. lia.
Qed.
End shape.

(** ** Well-formed lexicons and the properties of the result *)

Section well_formed.
Implicit Types (lex out : Lexicon) (p q : list string).

Lemma lexicon_ok_Forall lex :
  lexicon_ok lex = true <->
  Forall (fun e => e.2 <> [] /\ Forall (fun t => token_ok t = true) e.2) lex.
Proof.
  unfold lexicon_ok. rewrite forallb_forall, Forall_forall.
  split; intros H e He; specialize (H e).
  - apply list_elem_of_In in He. specialize (H He).
    destruct (e.2) as [|t p] eqn:Hp; [done|]. split; [done|].
    apply Forall_forall. intros x Hx. apply list_elem_of_In in Hx.
    rewrite forallb_forall in H. by apply H.
  - apply list_elem_of_In in He. destruct (H He) as [Hne Hall].
    destruct (e.2) as [|t p] eqn:Hp; [done|].
    apply forallb_forall. intros x Hx. apply list_elem_of_In in Hx.
    rewrite Forall_forall in Hall. by apply Hall.
Qed.

Lemma lexicon_ok_lookup lex i w p :
  lexicon_ok lex = true -> lex !! i = Some (w, p) ->
  p <> [] /\ Forall (fun t => token_ok t = true) p.
Proof.
  intros Hok%lexicon_ok_Forall Hi.
  rewrite Forall_forall in Hok.
  apply (Hok (w, p)). by eapply list_elem_of_lookup_2.
Qed.

Lemma lexicon_ok_elem lex w p :
  lexicon_ok lex = true -> (w, p) ∈ lex ->
  p <> [] /\ Forall (fun t => token_ok t = true) p.
Proof.
  intros Hok [i Hi]%list_elem_of_lookup_1. by eapply lexicon_ok_lookup.
Qed.

(** On a well-formed lexicon the function returns. *)
Lemma lexicon_ok_runs lex :
  lexicon_ok lex = true -> exists out m, add_disambig_symbols lex = Ok (out, m).
Proof.
  intros Hok%lexicon_ok_Forall. apply add_disambig_symbols_ok.
  eapply Forall_impl; [done|]. intros [w p] [Hne Hall]. split; [done|].
  by apply join_nonempty.
Qed.

Lemma add_disambig_symbols_nonempty lex out m w p :
  add_disambig_symbols lex = Ok (out, m) -> (w, p) ∈ lex -> p <> [].
Proof.
  intros (d & Hd & _)%add_disambig_symbols_unfold Hin.
  apply (mark_loop_lexicon _ _ _ "") in Hd as [Hall _].
  rewrite Forall_forall in Hall. by apply (Hall (w, p)).
Qed.

Lemma occ_take_lt lex i j e k :
  i < j -> lex !! j = Some e -> phnseq_of e = k ->
  occ k (take (S i) lex) < occ k (take (S j) lex).
Proof.
  intros Hij Hj Hk. rewrite (take_S_r _ _ _ Hj), occ_app, occ_cons.
  rewrite decide_True by done.
  replace (take (S i) lex) with (take (S i) (take j lex))
    by (rewrite take_take; f_equal; lia).
  pose proof (occ_take_le (take j lex) (S i) k). lia.
Qed.

Lemma same_key_twice lex i j e1 e2 :
  i <> j -> lex !! i = Some e1 -> lex !! j = Some e2 ->
  phnseq_of e1 = phnseq_of e2 -> 2 <= occ (phnseq_of e1) lex.
Proof.
  assert (forall i j e1 e2, i < j -> lex !! i = Some e1 -> lex !! j = Some e2 ->
            phnseq_of e1 = phnseq_of e2 -> 2 <= occ (phnseq_of e1) lex) as Hlt.
  { clear. intros i j e1 e2 Hij Hi Hj Hk.
    pose proof (occ_take_pos lex i e1 Hi).
    pose proof (occ_take_lt lex i j e2 (phnseq_of e1) Hij Hj (eq_sym Hk)).
    pose proof (occ_take_le lex (S j) (phnseq_of e1)). lia. }
  intros Hij Hi Hj Hk. destruct (decide (i < j)).
  - by eapply Hlt.
  - rewrite Hk. eapply (Hlt j i); [lia | done..].
Qed.

Lemma left_subseq_of_prefix lex w p q :
  (w, q) ∈ lex -> p <> [] -> proper_prefix p q ->
  left_subseq (join " " p) lex.
Proof.
  intros Hin Hne [[r ->] Hneq]. exists w, (p ++ r), (length p).
  split; [done|]. split.
  - rewrite length_app. destruct p; [done|]. destruct r.
    + by rewrite app_nil_r in Hneq.
    + simpl. lia.
  - by rewrite take_app_length.
Qed.

Lemma prefix_snoc_inv {A} (l l2 : list A) x :
  l `prefix_of` l2 ++ [x] -> l `prefix_of` l2 \/ l = l2 ++ [x].
Proof.
  intros [r Hr]. destruct (decide (r = [])) as [->|Hne].
  - right. by rewrite app_nil_r in Hr.
  - left. destruct (exists_last Hne) as (r' & y & ->).
    rewrite app_assoc in Hr. apply app_inj_tail in Hr as [-> _].
    by exists r'.
Qed.

(** With well-formed tokens, a rewritten entry is the old pronunciation
    followed by the disambiguation symbol. *)
Lemma add_disambig_symbols_lookup_ok lex out m i w p :
  lexicon_ok lex = true ->
  add_disambig_symbols lex = Ok (out, m) ->
  lex !! i = Some (w, p) ->
  let k := join " " p in
  let idx := occ k (take (S i) lex) in
  (~ ambiguous k lex /\ out !! i = Some (w, p)) \/
  (ambiguous k lex /\ out !! i = Some (w, p ++ [disambig_symbol idx]) /\
   1 <= idx <= m).
Proof.
  intros Hok Hrun Hi k idx.
  destruct (lexicon_ok_lookup lex i w p Hok Hi) as [Hne Hall].
  destruct (add_disambig_symbols_lookup lex out m i w p Hrun Hi)
    as [(H1 & H2 & H3)|(H1 & H2 & H3)].
  - left. split; [|done]. unfold ambiguous. fold k. tauto.
  - right. split; [done|]. split; [|done].
    unfold rewritten in H2. by rewrite split_disambig in H2.
Qed.

(** With well-formed tokens, the tests of the code on joined strings are
    tests on the pronunciations themselves. *)
Lemma occ_occurs_once lex p :
  lexicon_ok lex = true -> p <> [] ->
  Forall (fun t => token_ok t = true) p ->
  occ (join " " p) lex
  = length (filter (fun e : string * list string => e.2 = p) lex).
Proof.
  intros Hok Hne Hp. unfold occ.
  assert (forall e, e ∈ lex -> phnseq_of e = join " " p <-> e.2 = p) as Hext.
  { intros [w q] Hin. destruct (lexicon_ok_elem lex w q Hok Hin) as [_ Hq].
    unfold phnseq_of. simpl. split; [by apply join_inj | by intros ->]. }
  clear Hok. induction lex as [|e lex IH]; [done|].
  rewrite !filter_cons.
  assert (phnseq_of e = join " " p <-> e.2 = p) as He
    by (apply Hext; by left).
  assert (length (filter (fun e => phnseq_of e = join " " p) lex)
          = length (filter (fun e : string * list string => e.2 = p) lex))
  as IH'.
  { apply IH. intros e' He'. apply Hext. by right. }
  repeat case_decide; simpl; tauto || by rewrite IH'.
Qed.

Lemma unambiguous_key lex w p :
  lexicon_ok lex = true -> (w, p) ∈ lex ->
  occurs_once p lex -> ~ prefix_of_another p lex ->
  ~ ambiguous (join " " p) lex.
Proof.
  intros Hok Hin Honce Hpre.
  destruct (lexicon_ok_elem lex w p Hok Hin) as [Hne Hp].
  intros [Hocc|(w' & q & n & Hq & Hn & Hk)].
  - by rewrite occ_occurs_once in Hocc.
  - destruct (lexicon_ok_elem lex w' q Hok Hq) as [_ Hqok].
    apply join_inj in Hk; [|by apply Forall_take | done].
    apply Hpre. exists w', q. split; [done|]. split.
    + rewrite <-Hk. apply prefix_take.
    + intros ->. apply (f_equal length) in Hk.
      rewrite length_take in Hk. lia.
Qed.
End well_formed.

Section separation.
Implicit Types (lex out : Lexicon) (p q : list string).

(** The heart of the guarantee: after the rewriting, no pronunciation
    is a prefix of (in particular, equal to) that of another entry. *)
Lemma no_prefix_between lex out m i j e1 e2 :
  lexicon_ok lex = true ->
  add_disambig_symbols lex = Ok (out, m) ->
  symbols_fresh m lex ->
  i <> j -> out !! i = Some e1 -> out !! j = Some e2 ->
  ~ e1.2 `prefix_of` e2.2.
Proof.
  intros Hok Hrun Hfresh Hij Hi Hj Hpre.
  pose proof (add_disambig_symbols_length lex out m Hrun) as Hlen.
  destruct (lookup_lt_is_Some_2 lex i) as [[w1 p1] Hi'].
  { rewrite <-Hlen. by eapply lookup_lt_Some. }
  destruct (lookup_lt_is_Some_2 lex j) as [[w2 p2] Hj'].
  { rewrite <-Hlen. by eapply lookup_lt_Some. }
  destruct (lexicon_ok_lookup lex i w1 p1 Hok Hi') as [Hne1 Hp1].
  pose proof (list_elem_of_lookup_2 _ _ _ Hi') as Hin1.
  pose proof (list_elem_of_lookup_2 _ _ _ Hj') as Hin2.
  (* a kept pronunciation is not a prefix of the old pronunciation of
     another entry *)
  assert (~ ambiguous (join " " p1) lex -> ~ p1 `prefix_of` p2) as Hkept.
  { intros Hna Hp. apply Hna. destruct (decide (p1 = p2)) as [->|Hneq].
    - left. pose proof (same_key_twice lex i j _ _ Hij Hi' Hj' eq_refl) as H2.
      unfold phnseq_of in H2. simpl in H2. lia.
    - right. by apply (left_subseq_of_prefix lex w2 p1 p2). }
  destruct (add_disambig_symbols_lookup_ok lex out m i w1 p1 Hok Hrun Hi')
    as [[Hna1 Ho1]|(Ha1 & Ho1 & Hidx1)];
  destruct (add_disambig_symbols_lookup_ok lex out m j w2 p2 Hok Hrun Hj')
    as [[Hna2 Ho2]|(Ha2 & Ho2 & Hidx2)];
  rewrite Hi in Ho1; rewrite Hj in Ho2;
  injection Ho1 as ->; injection Ho2 as ->; simpl in Hpre.
  - by apply Hkept.
  - apply prefix_snoc_inv in Hpre as [Hp | ->]; [by apply Hkept|].
    apply (Hfresh _ w1 _ Hidx2 Hin1). apply elem_of_app. right. by left.
  - destruct Hpre as [r ->]. apply (Hfresh _ w2 _ Hidx1 Hin2).
    rewrite <-app_assoc. apply elem_of_app. right. by left.
  - apply prefix_snoc_inv in Hpre as [[r ->] | Heq].
    + apply (Hfresh _ w2 _ Hidx1 Hin2).
      rewrite <-app_assoc. apply elem_of_app. right. by left.
    + apply app_inj_tail in Heq as [-> Hsym%disambig_symbol_inj].
      destruct (decide (i < j)).
      * pose proof (occ_take_lt lex i j (w2, p2) (join " " p2)
                      ltac:(done) Hj' eq_refl). lia.
      * pose proof (occ_take_lt lex j i (w1, p2) (join " " p2)
                      ltac:(lia) Hi' eq_refl). lia.
Qed.
End separation.

(** ** The rows of lexicon_to_fst_no_sil *)

Section fst_facts.
Implicit Types (lex : Lexicon) (token2id word2id : gmap string Z).

Lemma chain_ref_closed cur next olabel (ids : list Z) :
  chain_ref cur next olabel ids
  = imap (chain_arc cur next olabel (length ids)) ids.
Proof.
  revert cur next olabel. induction ids as [|tok ids IH]; intros cur next ol.
  - done.
  - destruct ids as [|tok' ids]; [done|].
    change (chain_ref cur next ol (tok :: tok' :: ids))
      with ([cur; next; tok; ol; 0%Z]
            :: chain_ref next (next + 1) eps (tok' :: ids)).
    rewrite IH. clear IH.
    assert (length (tok' :: ids) = S (length ids)) as Hlen by done.
    revert Hlen. generalize (tok' :: ids). intros l Hlen.
    rewrite (imap_cons _ tok l). cbn [length]. rewrite Hlen. f_equal.
    + unfold chain_arc. simpl. do 2 f_equal. lia.
    + apply imap_ext. intros i x _. unfold chain_arc, compose.
      generalize (length ids). intros n.
      destruct (Nat.eqb_spec i 0), (Nat.eqb_spec i (S n - 1)),
               (Nat.eqb_spec (S i) (S (S n) - 1)), (Nat.eqb_spec (S i) 0);
        try lia; unfold eps; repeat (f_equal; try lia).
Qed.

(** The rows before the sort: the arcs of the lexicon, the self-loops
    if asked for, the terminating arc, the final-state row. *)
Lemma lexicon_to_fst_no_sil_unfold lex token2id word2id b rows :
  lexicon_to_fst_no_sil lex token2id word2id b = Ok rows ->
  exists st extra,
    lexicon_arcs lex token2id word2id = Ok st /\
    (if b then
       exists dp dw ss,
         token2id !! "#0" = Some dp /\ word2id !! "#0" = Some dw /\
         NoDup ss /\ (forall s, s ∈ ss <-> emits (arcs st) s) /\
         extra = map (self_loop dp dw) ss
     else extra = []) /\
    rows = sorted_by_src (arcs st ++ extra ++ closing_rows (next_state st)).
Proof.
  unfold lexicon_to_fst_no_sil.
  destruct (lexicon_arcs lex token2id word2id) as [st|] eqn:Hst;
    cbn [mbind result_bind]; [|done].
  destruct b.
  - destruct (lookup_id token2id "#0") as [dp|] eqn:Hdp;
      cbn [mbind result_bind]; [|done].
    destruct (lookup_id word2id "#0") as [dw|] eqn:Hdw;
      cbn [mbind result_bind]; [|done].
    destruct (add_self_loops (arcs st) dp dw) as [res|] eqn:Hres;
      cbn [mbind result_bind]; [|done].
    intros [= <-].
    apply add_self_loops_spec in Hres as (ss & Hnd & Hss & ->).
    apply lookup_id_Ok in Hdp, Hdw.
    exists st, (map (self_loop dp dw) ss). split; [done|]. split.
    + by exists dp, dw, ss.
    + unfold closing_rows. by rewrite <-!app_assoc.
  - cbn [mbind result_bind]. intros [= <-]. exists st, [].
    split; [done|]. split; [done|].
    unfold closing_rows. by rewrite <-!app_assoc.
Qed.

Lemma lexicon_arcs_shape lex token2id word2id st :
  lexicon_arcs lex token2id word2id = Ok st ->
  (1 <= next_state st)%Z /\
  Forall (fun arc => length arc = 5 /\
            (0 <= row_key arc < next_state st)%Z) (arcs st).
Proof.
  intros (_ & _ & entries & _ & -> & ->)%lexicon_arcs_spec.
  split; [apply state_after_ge | by apply fst_ref_shape].
Qed.

Lemma without_self_loops lex token2id word2id st :
  lexicon_arcs lex token2id word2id = Ok st ->
  lexicon_to_fst_no_sil lex token2id word2id false
  = Ok (sorted_by_src (arcs st ++ closing_rows (next_state st))).
Proof.
  intros Hst. unfold lexicon_to_fst_no_sil. rewrite Hst.
  cbn [mbind result_bind]. unfold closing_rows. by rewrite <-!app_assoc.
Qed.
End fst_facts.

(** ** When lexicon_to_fst_no_sil returns *)

Section fst_runs.
Variables token2id word2id : gmap string Z.

Lemma lookup_ids_ok (l : list string) :
  Forall (fun sym => is_Some (token2id !! sym)) l ->
  exists ids, lookup_ids token2id l = Ok ids.
Proof.
  induction 1 as [|sym l [i Hi] _ [ids IH]]; [by eexists|].
  simpl. unfold lookup_id. rewrite Hi. cbn [mbind result_bind].
  rewrite IH. cbn [mbind result_bind]. by eexists.
Qed.

Lemma entry_step_ok st e :
  known token2id word2id e ->
  exists st', entry_step token2id word2id st e = Ok st'.
Proof.
  destruct e as [word prons]. intros (Hne & [wid Hw] & Hall). simpl in *.
  destruct (lookup_ids_ok prons Hall) as [ids Hids].
  unfold entry_step, assert, lookup_id.
  destruct prons as [|t prons]; [done|].
  cbn [length Nat.ltb Nat.leb mbind result_bind].
  rewrite Hw. cbn [mbind result_bind]. rewrite Hids.
  cbn [mbind result_bind].
  destruct (foldl _ _ _) as [[a c] n]. by eexists.
Qed.

Lemma entries_loop_ok lex st :
  Forall (known token2id word2id) lex ->
  exists st', for_each (entry_step token2id word2id) lex st = Ok st'.
Proof.
  intros H. revert st. induction H as [|e lex He _ IH]; intros st.
  - by eexists.
  - cbn [for_each]. destruct (entry_step_ok st e He) as [st1 ->].
    cbn [mbind result_bind]. apply IH.
Qed.

(** With the reserved symbols at 0 and every symbol of the lexicon in its
    table (and [#0] in both tables when self-loops are asked for), the
    builder returns. *)
Lemma lexicon_to_fst_no_sil_ok lex (need_self_loops : bool) :
  token2id !! "<unk>" = Some 0%Z -> word2id !! "<eps>" = Some 0%Z ->
  Forall (known token2id word2id) lex ->
  (need_self_loops = true ->
   is_Some (token2id !! "#0") /\ is_Some (word2id !! "#0")) ->
  exists rows,
    lexicon_to_fst_no_sil lex token2id word2id need_self_loops = Ok rows.
Proof.
  intros Hunk Heps Hlex Hsharp.
  destruct (entries_loop_ok lex (FstState [] 1) Hlex) as [st Hst].
  assert (lexicon_arcs lex token2id word2id = Ok st) as Harcs.
  { unfold lexicon_arcs, lookup_id, assert. rewrite Hunk, Heps. done. }
  unfold lexicon_to_fst_no_sil. rewrite Harcs. cbn [mbind result_bind].
  destruct need_self_loops; [|by eexists].
  destruct Hsharp as [[dp Hdp] [dw Hdw]]; [done|].
  unfold lookup_id. rewrite Hdp, Hdw. cbn [mbind result_bind].
  destruct (add_self_loops_ok (arcs st) dp dw) as [res ->].
  { destruct (lexicon_arcs_shape _ _ _ _ Harcs) as [_ Hshape].
    eapply Forall_impl; [done|]. by intros arc [? _]. }
  by eexists.
Qed.
End fst_runs.

(** The text handed to [k2.Fsa.from_str] in Scenario C. *)
Example fsa_text_scenario_C :
  fsa_text [[0; 1; 1; 1; 0]; [0; 3; -1; -1; 0]; [1; 2; 2; 0; 0];
            [2; 0; 3; 0; 0]; [3]]%Z
  = "0 1 1 1 0" +:+ newline +:+ "0 3 -1 -1 0" +:+ newline +:+
    "1 2 2 0 0" +:+ newline +:+ "2 0 3 0 0" +:+ newline +:+ "3".
Proof. vm_compute. reflexivity. Qed.

(** ** [str.split()] on any string *)

Section split_facts.
Implicit Types (s t : string) (c : ascii).

Lemma split_aux_inside s :
  (split_aux s).1 = true -> (split_aux s).2 <> [].
Proof.
  destruct s as [|c s]; simpl; [done|].
  destruct (split_aux s) as [inside ws]. destruct (is_space c); [done|].
  by destruct inside, ws.
Qed.

(** A whitespace character cuts the string in two for [split]. *)
Lemma split_aux_app_sep s c t :
  is_space c = true ->
  split_aux (s +:+ String c t) = ((split_aux s).1, split s ++ split t).
Proof.
  intros Hc. induction s as [|c' s IH].
  - change ("" +:+ String c t) with (String c t). unfold split. simpl.
    rewrite Hc. by destruct (split_aux t).
  - rewrite append_cons. unfold split in *. simpl. rewrite IH.
    pose proof (split_aux_inside s) as Hin.
    destruct (split_aux s) as [inside ws]. simpl in *.
    destruct (is_space c'); [done|].
    destruct inside; [|done]. destruct ws as [|w ws]; [by destruct Hin|done].
Qed.

Lemma split_app_sep s c t :
  is_space c = true -> split (s +:+ String c t) = split s ++ split t.
Proof. intros Hc. unfold split at 1. by rewrite split_aux_app_sep. Qed.

Lemma split_token t : token_ok t = true -> split t = [t].
Proof.
  intros Ht. rewrite <-(append_empty_r t) at 1. unfold split.
  by rewrite split_aux_token.
Qed.

(** What [split] returns are tokens: not empty, no whitespace inside. *)
Lemma split_tokens_ok s : Forall (fun t => token_ok t = true) (split s).
Proof.
  unfold split. induction s as [|c s IH]; simpl; [constructor|].
  pose proof (split_aux_inside s) as Hin.
  destruct (split_aux s) as [inside ws]. simpl in *.
  destruct (is_space c) eqn:Hc; [done|].
  destruct inside, ws as [|w ws]; simpl.
  - by destruct Hin.
  - apply Forall_cons in IH as [Hw Hws]. constructor; [|done].
    destruct w as [|c' w]; [done|]. simpl in *. by rewrite Hc.
  - constructor; [by simpl; rewrite Hc | constructor].
  - constructor; [by simpl; rewrite Hc | done].
Qed.

Lemma join_empty (p : list string) :
  join " " p = "" <-> p = [] \/ p = [""].
Proof.
  split.
  - destruct p as [|t [|t' p]]; [by left | |].
    + intros H. change (t = "") in H. subst t. by right.
    + rewrite join_cons. by destruct t.
  - by intros [-> | ->].
Qed.

(** The pronunciation of a rewritten entry, whatever the tokens were. *)
Lemma rewritten_split k idx :
  rewritten k idx = split k ++ [disambig_symbol idx].
Proof.
  unfold rewritten.
  change (" #" +:+ str idx) with (String " " (disambig_symbol idx)).
  rewrite split_app_sep by done.
  by rewrite (split_token _ (disambig_symbol_ok idx)).
Qed.
End split_facts.

(** * The claims about add_disambig_symbols *)

(** C1, counterexample.  All pronunciations are non-empty, yet the result
    has two entries with the same pronunciation: the rewritten ["A"] gets
    [a #1], which entry ["C"] already has. *)
Lemma assign_collision_counterexample :
  Forall (fun e : string * list string => e.2 <> []) lexicon_sharp /\
  exists out m,
    add_disambig_symbols lexicon_sharp = Ok (out, m) /\
    ~ (collision_free out /\ prefix_free out).
Proof.
  split; [by repeat constructor|].
  eexists _, _. split; [vm_compute; reflexivity|].
  intros [Hc _]. by apply (Hc 0 2 ("A", ["a"; "#1"]) ("C", ["a"; "#1"])).
Qed.

(** C1, amended.  For a lexicon whose pronunciations are non-empty lists
    of non-empty, whitespace-free tokens, add_disambig_symbols returns, and
    if no token of the lexicon is one of the symbols #1 .. #max_disambig it
    hands out, the returned lexicon is collision-free and prefix-free. *)
Theorem assign_separates (lex : Lexicon) :
  lexicon_ok lex = true ->
  exists out m,
    add_disambig_symbols lex = Ok (out, m) /\
    (symbols_fresh m lex -> collision_free out /\ prefix_free out).
Proof.
  intros Hok. destruct (lexicon_ok_runs lex Hok) as (out & m & Hrun).
  exists out, m. split; [done|]. intros Hfresh. split.
  - intros i j e1 e2 Hij Hi Hj Heq.
    apply (no_prefix_between lex out m i j e1 e2); try done.
    by rewrite Heq.
  - intros i j e1 e2 Hij Hi Hj [Hpre _].
    by apply (no_prefix_between lex out m i j e1 e2).
Qed.

Lemma assign_separates_witness :
  exists out m,
    add_disambig_symbols lexicon_A = Ok (out, m) /\
    collision_free out /\ prefix_free out.
Proof.
  destruct (assign_separates lexicon_A eq_refl) as (out & m & Hrun & H).
  exists out, m. split; [exact Hrun|]. apply H.
  vm_compute in Hrun. injection Hrun as <- <-.
  intros k w p Hk Hin Hel.
  assert (p = ["a"]) as ->.
  { unfold lexicon_A in Hin.
    repeat (apply elem_of_cons in Hin as [Hin|Hin];
            [by injection Hin as _ ->|]).
    by apply elem_of_nil in Hin. }
  assert (k = 1 \/ k = 2) as [-> | ->] by lia;
    apply list_elem_of_In in Hel; simpl in Hel;
    destruct Hel as [Hel|[]]; vm_compute in Hel; discriminate Hel.
Defined.

(** C4.  An entry with an empty pronunciation makes the function fail, but
    with the IndexError of [prons.pop()] in step (2): the assertion of
    step (3) is not reached, and no word is reported. *)
Theorem empty_pronunciation_raises (lex : Lexicon) (w : string) :
  (w, []) ∈ lex -> add_disambig_symbols lex = Raise IndexError.
Proof. apply add_disambig_symbols_raise. Qed.

Lemma empty_pronunciation_raises_witness :
  add_disambig_symbols [("A", [])] = Raise IndexError.
Proof. apply (empty_pronunciation_raises [("A", [])] "A"). by left. Defined.

(** C5.  An entry whose phone sequence needs disambiguation gets as index
    the number of entries with that phone sequence up to and including
    itself, in lexicon order: 1 for the first, 2 for the next, and so on;
    the index is at most the returned maximum.  With well-formed tokens
    the new pronunciation is the old one followed by [#index].
    Scenario A. *)
Theorem disambig_indices_per_key :
  (forall (lex out : Lexicon) (m i : nat) (w : string) (p : list string),
     add_disambig_symbols lex = Ok (out, m) ->
     lex !! i = Some (w, p) ->
     ambiguous (join " " p) lex ->
     let idx := occ (join " " p) (take (S i) lex) in
     out !! i = Some (w, split (join " " p +:+ " #" +:+ str idx)) /\
     1 <= idx <= m /\
     (lexicon_ok lex = true ->
      out !! i = Some (w, p ++ [disambig_symbol idx]))) /\
  add_disambig_symbols lexicon_A
  = Ok ([("A", ["a"; "#1"]); ("B", ["a"; "#2"])], 2).
Proof.
  split; [|vm_compute; reflexivity].
  intros lex out m i w p Hrun Hi Hamb idx.
  destruct (add_disambig_symbols_lookup lex out m i w p Hrun Hi)
    as [(H1 & H2 & _)|(_ & Ho & Hidx)].
  { destruct Hamb; done. }
  split; [done|]. split; [done|]. intros Hok.
  destruct (add_disambig_symbols_lookup_ok lex out m i w p Hok Hrun Hi)
    as [[Hna _]|(_ & Ho' & _)]; done.
Qed.

Lemma disambig_indices_per_key_witness :
  exists out m,
    add_disambig_symbols lexicon_A = Ok (out, m) /\
    out !! 1 = Some ("B", ["a"; "#2"]) /\ 2 <= m.
Proof.
  eexists _, _. split; [vm_compute; reflexivity|].
  assert (ambiguous (join " " ["a"]) lexicon_A) as Hamb.
  { left. vm_compute. discriminate. }
  destruct (proj1 disambig_indices_per_key lexicon_A _ _ 1 "B" ["a"]
              eq_refl eq_refl Hamb) as (Ho & [_ Hm] & _).
  split; [exact Ho | exact Hm].
Defined.

(** C6.  An entry whose pronunciation is a proper prefix of that of
    another entry is rewritten with an index of at least 1, also when its
    phone sequence occurs once, and the index is then 1: its pronunciation
    becomes what [str.split()] gives for its phone sequence, followed by
    the one token ["#idx"]; for tokens that are non-empty and free of
    whitespace this is the pronunciation itself followed by ["#idx"].  An
    entry whose phone sequence occurs once and is no left part of another
    stays as it is.  Scenario B. *)
Theorem prefix_entry_disambiguated :
  (forall (lex out : Lexicon) (m i j : nat) (w w' : string)
          (p q : list string),
     add_disambig_symbols lex = Ok (out, m) ->
     lex !! i = Some (w, p) -> lex !! j = Some (w', q) ->
     proper_prefix p q ->
     (exists idx, 1 <= idx <= m /\
        out !! i = Some (w, split (join " " p +:+ " #" +:+ str idx)) /\
        out !! i = Some (w, split (join " " p) ++ [disambig_symbol idx]) /\
        (lexicon_ok lex = true ->
         out !! i = Some (w, p ++ [disambig_symbol idx])) /\
        (occ (join " " p) lex = 1 -> idx = 1)) /\
     (occ (join " " q) lex = 1 -> ~ left_subseq (join " " q) lex ->
      out !! j = Some (w', q))) /\
  add_disambig_symbols lexicon_B
  = Ok ([("CAT", ["k"; "a"; "t"; "#1"]); ("CATS", ["k"; "a"; "t"; "s"])], 1).
Proof.
  split; [|vm_compute; reflexivity].
  intros lex out m i j w w' p q Hrun Hi Hj Hpre. split.
  - pose proof (list_elem_of_lookup_2 _ _ _ Hi) as Hin.
    pose proof (list_elem_of_lookup_2 _ _ _ Hj) as Hin'.
    pose proof (add_disambig_symbols_nonempty lex out m w p Hrun Hin) as Hne.
    pose proof (left_subseq_of_prefix lex w' p q Hin' Hne Hpre) as Hsub.
    destruct (add_disambig_symbols_lookup lex out m i w p Hrun Hi)
      as [(_ & Hno & _)|(Hamb & Ho & Hidx)]; [done|].
    eexists. split; [exact Hidx|]. split; [exact Ho|]. split; [|split].
    + by rewrite <-rewritten_split.
    + intros Hok.
      destruct (add_disambig_symbols_lookup_ok lex out m i w p Hok Hrun Hi)
        as [(Hna & _)|(_ & Ho' & _)]; done.
    + intros Hocc.
      pose proof (occ_take_le lex (S i) (join " " p)). lia.
  - intros Hocc Hno.
    destruct (add_disambig_symbols_lookup lex out m j w' q Hrun Hj)
      as [(_ & _ & Ho)|([?|?] & _)]; done.
Qed.

Lemma prefix_entry_disambiguated_witness :
  exists out m,
    add_disambig_symbols lexicon_B = Ok (out, m) /\
    (exists idx, 1 <= idx <= m /\
       out !! 0 = Some ("CAT", split ("k a t" +:+ " #" +:+ str idx)) /\
       out !! 0 = Some ("CAT", split "k a t" ++ [disambig_symbol idx]) /\
       out !! 0 = Some ("CAT", ["k"; "a"; "t"] ++ [disambig_symbol idx]) /\
       idx = 1).
Proof.
  eexists _, _. split; [vm_compute; reflexivity|].
  assert (proper_prefix ["k"; "a"; "t"] ["k"; "a"; "t"; "s"]) as Hpre.
  { split; [by exists ["s"] | discriminate]. }
  destruct (proj1 (proj1 prefix_entry_disambiguated lexicon_B _ _ 0 1
                     "CAT" "CATS" _ _ eq_refl eq_refl eq_refl Hpre))
    as (idx & Hidx & Ho & Ho' & Hok & Hone).
  exists idx. split; [exact Hidx|]. split; [exact Ho|]. split; [exact Ho'|].
  split; [exact (Hok eq_refl) | exact (Hone eq_refl)].
Defined.

(** C7, counterexample.  The pronunciation [["a b"]] of entry ["A"] occurs
    once and is not a proper prefix of another pronunciation, yet the entry
    is rewritten: its joined string is that of entry ["B"]. *)
Lemma unique_entry_counterexample :
  lexicon_spaced !! 0 = Some ("A", ["a b"]) /\
  occurs_once ["a b"] lexicon_spaced /\
  ~ prefix_of_another ["a b"] lexicon_spaced /\
  exists out m,
    add_disambig_symbols lexicon_spaced = Ok (out, m) /\
    out !! 0 <> Some ("A", ["a b"]).
Proof.
  split; [done|]. split; [by vm_compute|]. split.
  - intros (w & q & Hin & [x Hx] & Hneq). unfold lexicon_spaced in Hin.
    repeat (apply elem_of_cons in Hin as [Hin|Hin];
            [injection Hin as -> ->; by destruct x|]).
    by apply elem_of_nil in Hin.
  - eexists _, _. split; [vm_compute; reflexivity|]. discriminate.
Qed.

(** C7, amended.  In a lexicon whose pronunciations are non-empty lists of
    non-empty, whitespace-free tokens, an entry whose pronunciation occurs
    once and is not a proper prefix of the pronunciation of another entry
    is returned unchanged, at its place. *)
Theorem unique_entry_unchanged (lex : Lexicon) (i : nat) (w : string)
    (p : list string) :
  lexicon_ok lex = true ->
  lex !! i = Some (w, p) ->
  occurs_once p lex ->
  ~ prefix_of_another p lex ->
  exists out m,
    add_disambig_symbols lex = Ok (out, m) /\ out !! i = Some (w, p).
Proof.
  intros Hok Hi Honce Hpre.
  destruct (lexicon_ok_runs lex Hok) as (out & m & Hrun).
  exists out, m. split; [done|].
  pose proof (list_elem_of_lookup_2 _ _ _ Hi) as Hin.
  pose proof (unambiguous_key lex w p Hok Hin Honce Hpre) as Hna.
  destruct (add_disambig_symbols_lookup_ok lex out m i w p Hok Hrun Hi)
    as [[_ Ho]|(Ha & _)]; done.
Qed.

Lemma unique_entry_unchanged_witness :
  exists out m,
    add_disambig_symbols lexicon_B = Ok (out, m) /\
    out !! 1 = Some ("CATS", ["k"; "a"; "t"; "s"]).
Proof.
  apply (unique_entry_unchanged lexicon_B 1 "CATS" ["k"; "a"; "t"; "s"]).
  - reflexivity.
  - reflexivity.
  - vm_compute. reflexivity.
  - intros (w & q & Hin & [x Hx] & Hneq). unfold lexicon_B in Hin.
    repeat (apply elem_of_cons in Hin as [Hin|Hin];
            [injection Hin as -> ->; try discriminate Hx;
             apply Hneq; injection Hx as ->; reflexivity|]).
    by apply elem_of_nil in Hin.
Defined.

(** C9, counterexample.  Every pronunciation occurs once and none is a
    proper prefix of another, yet the result is not the input: the joined
    string of [["a b"]] is a left part of that of [["a"; "b"; "c"]]. *)
Lemma identity_counterexample :
  (forall i w p, lexicon_spaced_prefix !! i = Some (w, p) ->
     occurs_once p lexicon_spaced_prefix /\
     ~ prefix_of_another p lexicon_spaced_prefix) /\
  add_disambig_symbols lexicon_spaced_prefix <> Ok (lexicon_spaced_prefix, 0).
Proof.
  split; [|vm_compute; discriminate].
  intros i w p Hi.
  assert ((w, p) = ("A", ["a b"]) \/ (w, p) = ("B", ["a"; "b"; "c"])) as Hwp.
  { destruct i as [|[|i]]; simpl in Hi; [left | right | done]; congruence. }
  split.
  - destruct Hwp as [[= -> ->]|[= -> ->]]; by vm_compute.
  - intros (w' & q & Hin & [x Hx] & Hneq). unfold lexicon_spaced_prefix in Hin.
    repeat (apply elem_of_cons in Hin as [Hin|Hin];
            [injection Hin as -> ->;
             destruct Hwp as [[= -> ->]|[= -> ->]];
             try discriminate Hx;
             apply Hneq; injection Hx as ->; reflexivity|]).
    by apply elem_of_nil in Hin.
Qed.

(** C9, amended.  On a lexicon whose pronunciations are non-empty lists of
    non-empty, whitespace-free tokens, in which every pronunciation occurs
    once and is not a proper prefix of another, add_disambig_symbols
    returns the lexicon itself and the maximum 0. *)
Theorem identity_on_unambiguous (lex : Lexicon) :
  lexicon_ok lex = true ->
  (forall i w p, lex !! i = Some (w, p) ->
     occurs_once p lex /\ ~ prefix_of_another p lex) ->
  add_disambig_symbols lex = Ok (lex, 0).
Proof.
  intros Hok Hall.
  destruct (lexicon_ok_runs lex Hok) as (out & m & Hrun).
  assert (forall i w p, lex !! i = Some (w, p) -> ~ ambiguous (join " " p) lex)
    as Hna.
  { intros i w p Hi. destruct (Hall i w p Hi) as [Honce Hpre].
    eapply unambiguous_key; [done | by eapply list_elem_of_lookup_2 | done..]. }
  assert (out = lex) as ->.
  { apply list_eq. intros i.
    destruct (lex !! i) as [[w p]|] eqn:Hi.
    - destruct (add_disambig_symbols_lookup lex out m i w p Hrun Hi)
        as [(_ & _ & Ho)|(Ha & _)]; [done|]. by apply (Hna i w) in Ha.
    - apply lookup_ge_None. apply lookup_ge_None in Hi.
      by rewrite (add_disambig_symbols_length lex out m Hrun). }
  destruct (add_disambig_symbols_max lex lex m Hrun)
    as [->|(i & w & p & Hi & Ha & _)]; [done|].
  by apply (Hna i w) in Ha.
Qed.

Lemma identity_on_unambiguous_witness :
  add_disambig_symbols lexicon_two = Ok (lexicon_two, 0).
Proof.
  apply (identity_on_unambiguous lexicon_two); [reflexivity|].
  intros i w p Hi.
  assert ((w, p) = ("A", ["a"]) \/ (w, p) = ("B", ["b"; "c"])) as Hwp.
  { destruct i as [|[|i]]; simpl in Hi;
      [left; congruence | right; congruence | discriminate Hi]. }
  split.
  - destruct Hwp as [Hwp|Hwp]; injection Hwp as -> ->;
      vm_compute; reflexivity.
  - intros (w' & q & Hin & [x Hx] & Hneq). unfold lexicon_two in Hin.
    repeat (apply elem_of_cons in Hin as [Hin|Hin];
            [injection Hin as -> ->;
             destruct Hwp as [Hwp|Hwp]; injection Hwp as -> ->;
             try discriminate Hx;
             apply Hneq; injection Hx as ->; reflexivity|]).
    by apply elem_of_nil in Hin.
Defined.

(** C10.  The function looks at a pronunciation only through its joined
    string: the count table counts joined strings, the prefix table is
    read at the joined string, two entries with the same joined string
    are both rewritten, with successive indices, and a rewritten
    pronunciation is the re-split of the joined string with [#index]
    added.  [["a b"]] and [["a"; "b"]] are so treated as the same phone
    sequence, for the count and for the prefix table. *)
Theorem keyed_by_joined_string :
  (forall (lex : Lexicon) (k : string),
     dget (count_phnseqs lex) k = occ k lex) /\
  (forall (lex out : Lexicon) (m i : nat) (w : string) (p : list string),
     add_disambig_symbols lex = Ok (out, m) ->
     lex !! i = Some (w, p) ->
     let k := join " " p in
     (occ k lex = 1 /\ ~ left_subseq k lex /\ out !! i = Some (w, p)) \/
     ((occ k lex <> 1 \/ left_subseq k lex) /\
      out !! i
      = Some (w, split (k +:+ " #" +:+ str (occ k (take (S i) lex)))))) /\
  (forall (lex out : Lexicon) (m i j : nat) (w1 w2 : string)
          (p1 p2 : list string),
     add_disambig_symbols lex = Ok (out, m) ->
     i < j -> lex !! i = Some (w1, p1) -> lex !! j = Some (w2, p2) ->
     join " " p1 = join " " p2 ->
     exists idx1 idx2,
       idx1 < idx2 /\
       out !! i = Some (w1, split (join " " p1 +:+ " #" +:+ str idx1)) /\
       out !! j = Some (w2, split (join " " p1 +:+ " #" +:+ str idx2))) /\
  add_disambig_symbols lexicon_spaced
  = Ok ([("A", ["a"; "b"; "#1"]); ("B", ["a"; "b"; "#2"])], 2) /\
  add_disambig_symbols lexicon_spaced_prefix
  = Ok ([("A", ["a"; "b"; "#1"]); ("B", ["a"; "b"; "c"])], 1).
Proof.
  split; [apply count_phnseqs_spec|].
  split; [|split; [|split; vm_compute; reflexivity]].
  - intros lex out m i w p Hrun Hi k.
    destruct (add_disambig_symbols_lookup lex out m i w p Hrun Hi)
      as [H|(Ha & Ho & _)]; [by left | by right].
  - intros lex out m i j w1 w2 p1 p2 Hrun Hij Hi Hj Hk.
    assert (ambiguous (join " " p1) lex) as Hamb.
    { left. pose proof (same_key_twice lex i j (w1, p1) (w2, p2)
                          ltac:(lia) Hi Hj Hk) as H2.
      unfold phnseq_of in H2. simpl in H2. lia. }
    exists (occ (join " " p1) (take (S i) lex)),
           (occ (join " " p1) (take (S j) lex)).
    split; [by apply (occ_take_lt lex i j (w2, p2))|].
    destruct (add_disambig_symbols_lookup lex out m i w1 p1 Hrun Hi)
      as [(H1 & H2 & _)|(_ & Ho1 & _)]; [destruct Hamb; done|].
    destruct (add_disambig_symbols_lookup lex out m j w2 p2 Hrun Hj)
      as [(H1 & H2 & _)|(_ & Ho2 & _)].
    { rewrite <-Hk in H1, H2. destruct Hamb; done. }
    rewrite <-Hk in Ho2. done.
Qed.

Lemma keyed_by_joined_string_witness :
  exists out m idx1 idx2,
    add_disambig_symbols lexicon_spaced = Ok (out, m) /\
    idx1 < idx2 /\
    out !! 0 = Some ("A", split ("a b" +:+ " #" +:+ str idx1)) /\
    out !! 1 = Some ("B", split ("a b" +:+ " #" +:+ str idx2)).
Proof.
  destruct (proj1 (proj2 (proj2 keyed_by_joined_string))
              lexicon_spaced _ _ 0 1 "A" "B" ["a b"] ["a"; "b"]
              eq_refl ltac:(lia) eq_refl eq_refl eq_refl)
    as (idx1 & idx2 & H).
  eexists _, _, idx1, idx2. split; [vm_compute; reflexivity | exact H].
Defined.

(** * The claims about lexicon_to_fst_no_sil *)

(** C2.  Without self-loops the rows are, up to the final sort by source
    state, the chains of the entries in order followed by the terminating
    arc [(0, final, -1, -1, 0)] and the row [[final]]: each chain starts
    in state 0, puts the word id on its first arc and epsilon on the
    others, goes through states taken from a counter that starts at 1, and
    comes back to state 0 with its last arc; [final] is the value of the
    counter after all entries.  The rows returned are these rows and no
    others, each as often as it was built (a permutation of them), and the
    rows that leave one state come in the order in which they were built.
    Scenario C. *)
Theorem fst_arcs_of_lexicon :
  (forall (lex : Lexicon) (token2id word2id : gmap string Z)
          (rows : list (list Z)),
     lexicon_to_fst_no_sil lex token2id word2id false = Ok rows ->
     exists entries : list (Z * list Z),
       Forall2 (resolves token2id word2id) lex entries /\
       rows = sorted_by_src (fst_ref 1 entries
                             ++ closing_rows (state_after 1 entries)) /\
       rows ≡ₚ fst_ref 1 entries ++ closing_rows (state_after 1 entries) /\
       (forall s : Z,
          filter (fun row => row_key row = s) rows
          = filter (fun row => row_key row = s)
                   (fst_ref 1 entries
                    ++ closing_rows (state_after 1 entries)))) /\
  (forall (cur next olabel : Z) (ids : list Z),
     chain_ref cur next olabel ids
     = imap (chain_arc cur next olabel (length ids)) ids) /\
  lexicon_to_fst_no_sil lexicon_C token2id_C word2id_C false
  = Ok [[0; 1; 1; 1; 0]; [0; 3; -1; -1; 0]; [1; 2; 2; 0; 0]; [2; 0; 3; 0; 0];
        [3]]%Z.
Proof.
  split; [|split; [apply chain_ref_closed | vm_compute; reflexivity]].
  intros lex token2id word2id rows Hrows.
  apply lexicon_to_fst_no_sil_unfold in Hrows as (st & extra & Hst & -> & ->).
  apply lexicon_arcs_spec in Hst as (_ & _ & entries & Hres & -> & ->).
  exists entries. split; [done|]. split; [done|]. split.
  - apply sorted_by_src_perm.
  - intros s. apply sorted_by_src_stable.
Qed.

Lemma fst_arcs_of_lexicon_witness :
  exists entries : list (Z * list Z),
    Forall2 (resolves token2id_C word2id_C) lexicon_C entries /\
    [[0; 1; 1; 1; 0]; [0; 3; -1; -1; 0]; [1; 2; 2; 0; 0]; [2; 0; 3; 0; 0];
     [3]]%Z
    = sorted_by_src (fst_ref 1 entries
                     ++ closing_rows (state_after 1 entries)) /\
    [[0; 1; 1; 1; 0]; [0; 3; -1; -1; 0]; [1; 2; 2; 0; 0]; [2; 0; 3; 0; 0];
     [3]]%Z
    ≡ₚ fst_ref 1 entries ++ closing_rows (state_after 1 entries) /\
    (forall s : Z,
       filter (fun row => row_key row = s)
              [[0; 1; 1; 1; 0]; [0; 3; -1; -1; 0]; [1; 2; 2; 0; 0];
               [2; 0; 3; 0; 0]; [3]]%Z
       = filter (fun row => row_key row = s)
                (fst_ref 1 entries ++ closing_rows (state_after 1 entries))).
Proof.
  apply (proj1 fst_arcs_of_lexicon lexicon_C token2id_C word2id_C).
  vm_compute. reflexivity.
Defined.

(** C3.  With self-loops the rows are those built without, plus one arc
    [(s, s, token2id["#0"], word2id["#0"], 0)] for each state [s] that is
    the source of an arc of the lexicon with a non-epsilon output label.
    Only the arcs of the lexicon are scanned: the terminating arc, whose
    output label is -1, gives no self-loop, as the empty lexicon shows.
    Scenario D. *)
Theorem self_loops_added :
  (forall (lex : Lexicon) (token2id word2id : gmap string Z)
          (rows : list (list Z)),
     lexicon_to_fst_no_sil lex token2id word2id true = Ok rows ->
     exists st rows0 dp dw ss,
       lexicon_arcs lex token2id word2id = Ok st /\
       lexicon_to_fst_no_sil lex token2id word2id false = Ok rows0 /\
       token2id !! "#0" = Some dp /\ word2id !! "#0" = Some dw /\
       NoDup ss /\ (forall s, s ∈ ss <-> emits (arcs st) s) /\
       rows ≡ₚ rows0 ++ map (self_loop dp dw) ss) /\
  lexicon_to_fst_no_sil [] token2id_D word2id_D true
  = Ok [[0; 1; -1; -1; 0]; [1]]%Z /\
  lexicon_to_fst_no_sil lexicon_C token2id_D word2id_D false
  = Ok [[0; 1; 1; 1; 0]; [0; 3; -1; -1; 0]; [1; 2; 2; 0; 0]; [2; 0; 3; 0; 0];
        [3]]%Z /\
  lexicon_to_fst_no_sil lexicon_C token2id_D word2id_D true
  = Ok [[0; 1; 1; 1; 0]; [0; 0; 4; 2; 0]; [0; 3; -1; -1; 0]; [1; 2; 2; 0; 0];
        [2; 0; 3; 0; 0]; [3]]%Z.
Proof.
  split; [|repeat split; vm_compute; reflexivity].
  intros lex token2id word2id rows Hrows.
  apply lexicon_to_fst_no_sil_unfold in Hrows
    as (st & extra & Hst & (dp & dw & ss & Hdp & Hdw & Hnd & Hss & ->) & ->).
  exists st, (sorted_by_src (arcs st ++ closing_rows (next_state st))),
         dp, dw, ss.
  split; [done|]. split; [by apply without_self_loops|].
  do 4 (split; [done|]).
  rewrite !sorted_by_src_perm, <-!app_assoc.
  apply Permutation_app_head, Permutation_app_comm.
Qed.

Lemma self_loops_added_witness :
  exists st rows0 dp dw ss,
    lexicon_arcs lexicon_C token2id_D word2id_D = Ok st /\
    lexicon_to_fst_no_sil lexicon_C token2id_D word2id_D false = Ok rows0 /\
    token2id_D !! "#0" = Some dp /\ word2id_D !! "#0" = Some dw /\
    NoDup ss /\ (forall s, s ∈ ss <-> emits (arcs st) s) /\
    [[0; 1; 1; 1; 0]; [0; 0; 4; 2; 0]; [0; 3; -1; -1; 0]; [1; 2; 2; 0; 0];
     [2; 0; 3; 0; 0]; [3]]%Z ≡ₚ rows0 ++ map (self_loop dp dw) ss.
Proof.
  apply (proj1 self_loops_added lexicon_C token2id_D word2id_D).
  vm_compute. reflexivity.
Defined.

(** C8.  Whatever the lexicon and the tables, with or without self-loops,
    the returned rows are in non-decreasing order of their first item, the
    source state; the last row is the final-state row, and the rows before
    it are arcs of five items. *)
Theorem rows_sorted_by_source (lex : Lexicon)
    (token2id word2id : gmap string Z) (need_self_loops : bool)
    (rows : list (list Z)) :
  lexicon_to_fst_no_sil lex token2id word2id need_self_loops = Ok rows ->
  StronglySorted src_le rows /\
  exists body final_state,
    rows = body ++ [[final_state]] /\
    Forall (fun arc => length arc = 5) body /\
    Forall (fun arc => (row_key arc < final_state)%Z) body.
Proof.
  intros (st & extra & Hst & Hextra & ->)%lexicon_to_fst_no_sil_unfold.
  split; [apply sorted_by_src_sorted|].
  destruct (lexicon_arcs_shape _ _ _ _ Hst) as [Hfin Harcs].
  set (term := [loop_state; next_state st; -1; -1; 0]%Z).
  assert (Forall (fun arc => length arc = 5 /\
                    (0 <= row_key arc < next_state st)%Z)
                 (arcs st ++ extra ++ [term])) as Hbody.
  { apply Forall_app. split; [done|]. apply Forall_app. split.
    - destruct need_self_loops; [|subst extra; constructor].
      destruct Hextra as (dp & dw & ss & _ & _ & _ & Hss & ->).
      apply Forall_forall. intros arc (s & -> & Hs)%list_elem_of_fmap.
      apply Hss in Hs as (a & Ha & <- & _).
      rewrite Forall_forall in Harcs. destruct (Harcs a Ha) as [_ Hk].
      split; [done|]. by unfold self_loop, row_key in *.
    - repeat constructor; unfold term, row_key, loop_state; simpl; lia. }
  exists (sorted_by_src (arcs st ++ extra ++ [term])), (next_state st).
  assert (arcs st ++ extra ++ closing_rows (next_state st)
          = (arcs st ++ extra ++ [term]) ++ [[next_state st]]) as ->.
  { unfold closing_rows. by rewrite <-!app_assoc. }
  split.
  - apply sorted_by_src_snoc. eapply Forall_impl; [done|].
    intros arc [_ Hk]. unfold row_key at 2. simpl. lia.
  - split; rewrite sorted_by_src_perm; (eapply Forall_impl; [done|]);
      intros arc [? ?]; [done | lia].
Qed.

Lemma rows_sorted_by_source_witness :
  StronglySorted src_le
    [[0; 1; 1; 1; 0]; [0; 0; 4; 2; 0]; [0; 3; -1; -1; 0]; [1; 2; 2; 0; 0];
     [2; 0; 3; 0; 0]; [3]]%Z /\
  exists body final_state,
    [[0; 1; 1; 1; 0]; [0; 0; 4; 2; 0]; [0; 3; -1; -1; 0]; [1; 2; 2; 0; 0];
     [2; 0; 3; 0; 0]; [3]]%Z = body ++ [[final_state]] /\
    Forall (fun arc => length arc = 5) body /\
    Forall (fun arc => (row_key arc < final_state)%Z) body.
Proof.
  apply (rows_sorted_by_source lexicon_C token2id_D word2id_D true).
  vm_compute. reflexivity.
Defined.

(** * Further facts *)

(** ** More on add_disambig_symbols *)

Section more_on_assign.
Implicit Types (lex out : Lexicon) (k : string).

Lemma assign_step_ok count issubseq st e :
  phnseq_of e <> "" -> exists st', assign_step count issubseq st e = Ok st'.
Proof.
  destruct e as [w p]. unfold phnseq_of, assign_step. simpl. intros Hne.
  case_decide; [done|]. destruct (_ && _); by eexists.
Qed.

Lemma assign_loop_raise count issubseq rest st :
  Exists (fun e => phnseq_of e = "") rest ->
  for_each (assign_step count issubseq) rest st = Raise (AssertionError None).
Proof.
  intros H. revert st. induction H as [e rest He|e rest _ IH]; intros st;
    cbn [for_each].
  - destruct e as [w p]. unfold phnseq_of in He. simpl in He.
    unfold assign_step. by rewrite decide_True.
  - destruct (decide (phnseq_of e = "")) as [He|He].
    + destruct e as [w p]. unfold phnseq_of in He. simpl in He.
      unfold assign_step. by rewrite decide_True.
    + destruct (assign_step_ok count issubseq st e He) as [st1 ->].
      cbn [mbind result_bind]. apply IH.
Qed.

Lemma assign_ref_words keep pre rest :
  (assign_ref keep pre rest).*1 = rest.*1.
Proof.
  revert pre. induction rest as [|[w p] rest IH]; intros pre; [done|].
  simpl. rewrite IH. by destruct (keep _).
Qed.

(** Some entry with a given phone sequence is the last one with it. *)
Lemma last_occurrence lex k :
  0 < occ k lex ->
  exists i e, lex !! i = Some e /\ phnseq_of e = k /\
              occ k (take (S i) lex) = occ k lex.
Proof.
  induction lex as [|e lex IH] using rev_ind; [rewrite occ_nil; lia|].
  rewrite occ_app, occ_cons, occ_nil. case_decide as Hk.
  - intros _. exists (length lex), e. split; [|split; [done|]].
    + by rewrite lookup_app_r, Nat.sub_diag by lia.
    + rewrite take_ge by (rewrite length_app; simpl; lia).
      rewrite occ_app, occ_cons, occ_nil. by rewrite decide_True.
  - intros Hpos. destruct IH as (i & e' & Hi & He' & Hocc); [lia|].
    exists i, e'. pose proof (lookup_lt_Some _ _ _ Hi).
    split; [by rewrite lookup_app_l|]. split; [done|].
    rewrite take_app_le by lia. lia.
Qed.

Lemma occ_le_length lex k : occ k lex <= length lex.
Proof. unfold occ. apply length_filter. Qed.

Lemma occ_pos_elem lex e : e ∈ lex -> 0 < occ (phnseq_of e) lex.
Proof.
  intros [i Hi]%list_elem_of_lookup_1.
  pose proof (occ_take_pos lex i e Hi).
  pose proof (occ_take_le lex (S i) (phnseq_of e)). lia.
Qed.

(** An entry is the only one with its pronunciation when all the others
    differ from it. *)
Lemma occurs_once_at out i (e : string * list string) :
  out !! i = Some e ->
  (forall j e', j <> i -> out !! j = Some e' -> e'.2 <> e.2) ->
  occurs_once e.2 out.
Proof.
  intros Hi Hother. unfold occurs_once.
  rewrite <-(take_drop_middle out i e Hi), filter_app, filter_cons.
  rewrite decide_True by done.
  assert (forall l : Lexicon, (forall e', e' ∈ l -> e'.2 <> e.2) ->
            filter (fun e' : string * list string => e'.2 = e.2) l = []) as Hnil.
  { clear. intros l Hl. induction l as [|x l IH]; [done|].
    rewrite filter_cons, decide_False by (apply Hl; by left).
    apply IH. intros e' He'. apply Hl. by right. }
  rewrite !Hnil; [done|..].
  - intros e' [j Hj]%list_elem_of_lookup_1. rewrite lookup_drop in Hj.
    apply (Hother (S i + j)); [lia | done].
  - intros e' [j Hj]%list_elem_of_lookup_1.
    pose proof (lookup_lt_Some _ _ _ Hj) as Hlt. rewrite length_take in Hlt.
    rewrite lookup_take_lt in Hj by lia. apply (Hother j); [lia | done].
Qed.

(** The core of the identity on unambiguous lexicons. *)
Lemma add_disambig_symbols_id lex :
  lexicon_ok lex = true ->
  (forall i w p, lex !! i = Some (w, p) -> ~ ambiguous (join " " p) lex) ->
  add_disambig_symbols lex = Ok (lex, 0).
Proof.
  intros Hok Hna.
  destruct (lexicon_ok_runs lex Hok) as (out & m & Hrun).
  assert (out = lex) as ->.
  { apply list_eq. intros i.
    destruct (lex !! i) as [[w p]|] eqn:Hi.
    - destruct (add_disambig_symbols_lookup lex out m i w p Hrun Hi)
        as [(_ & _ & Ho)|(Ha & _)]; [done|]. by apply (Hna i w) in Ha.
    - apply lookup_ge_None. apply lookup_ge_None in Hi.
      by rewrite (add_disambig_symbols_length lex out m Hrun). }
  destruct (add_disambig_symbols_max lex lex m Hrun)
    as [->|(i & w & p & Hi & Ha & _)]; [done|].
  by apply (Hna i w) in Ha.
Qed.

(** The result of a well-formed lexicon is well-formed. *)
Lemma add_disambig_symbols_keeps_ok lex out m :
  lexicon_ok lex = true -> add_disambig_symbols lex = Ok (out, m) ->
  lexicon_ok out = true.
Proof.
  intros Hok Hrun. apply lexicon_ok_Forall, Forall_forall.
  intros [w q] [i Hi]%list_elem_of_lookup_1. simpl.
  pose proof (add_disambig_symbols_length lex out m Hrun) as Hlen.
  destruct (lookup_lt_is_Some_2 lex i) as [[w' p] Hi'].
  { rewrite <-Hlen. by eapply lookup_lt_Some. }
  destruct (lexicon_ok_lookup lex i w' p Hok Hi') as [Hne Hp].
  destruct (add_disambig_symbols_lookup_ok lex out m i w' p Hok Hrun Hi')
    as [[_ Ho]|(_ & Ho & _)]; rewrite Hi in Ho; injection Ho as -> ->.
  - done.
  - split; [by destruct p|]. apply Forall_app. split; [done|].
    constructor; [apply disambig_symbol_ok | constructor].
Qed.
End more_on_assign.

(** ** More on lexicon_to_fst_no_sil *)

Section more_on_fst.
Implicit Types (lex : Lexicon) (token2id word2id : gmap string Z).

Lemma for_each_app {S X} (body : S -> X -> result S) (l1 l2 : list X) s :
  for_each body (l1 ++ l2) s
  = (s' ← for_each body l1 s; for_each body l2 s').
Proof.
  revert s. induction l1 as [|x l1 IH]; intros s; [done|].
  cbn [for_each app]. destruct (body s x); cbn [mbind result_bind]; [|done].
  apply IH.
Qed.

Lemma resolves_known token2id word2id e r :
  resolves token2id word2id e r -> known token2id word2id e.
Proof.
  destruct e as [word prons], r as [wid ids]. intros (Hne & Hw & Hids).
  split; [done|]. split; [by eexists|]. simpl.
  clear Hne. induction Hids; constructor; [by eexists | done].
Qed.

(** The rows as a list that ends in the final-state row. *)
Lemma rows_final_last lex token2id word2id b rows :
  lexicon_to_fst_no_sil lex token2id word2id b = Ok rows ->
  exists st extra,
    lexicon_arcs lex token2id word2id = Ok st /\
    (if b then
       exists dp dw ss,
         token2id !! "#0" = Some dp /\ word2id !! "#0" = Some dw /\
         NoDup ss /\ (forall s, s ∈ ss <-> emits (arcs st) s) /\
         extra = map (self_loop dp dw) ss
     else extra = []) /\
    rows = sorted_by_src
             (arcs st ++ extra ++ [[loop_state; next_state st; -1; -1; 0]%Z])
           ++ [[next_state st]].
Proof.
  intros (st & extra & Hst & Hextra & ->)%lexicon_to_fst_no_sil_unfold.
  exists st, extra. split; [done|]. split; [done|].
  destruct (lexicon_arcs_shape _ _ _ _ Hst) as [Hfin Harcs].
  assert (arcs st ++ extra ++ closing_rows (next_state st)
          = (arcs st ++ extra ++ [[loop_state; next_state st; -1; -1; 0]%Z])
            ++ [[next_state st]]) as ->.
  { unfold closing_rows. by rewrite <-!app_assoc. }
  apply sorted_by_src_snoc. apply Forall_app. split.
  - eapply Forall_impl; [done|]. intros arc [_ Hk].
    unfold row_key at 2. simpl. lia.
  - apply Forall_app. split.
    + destruct b; [|subst extra; constructor].
      destruct Hextra as (dp & dw & ss & _ & _ & _ & Hss & ->).
      apply Forall_forall. intros arc (s & -> & Hs)%list_elem_of_fmap.
      apply Hss in Hs as (a & Ha & <- & _).
      rewrite Forall_forall in Harcs. destruct (Harcs a Ha) as [_ Hk].
      unfold self_loop, row_key in *. simpl. lia.
    + repeat constructor. unfold row_key, loop_state. simpl. lia.
Qed.

(** Sizes. *)
Lemma chain_ref_length cur next olabel (ids : list Z) :
  length (chain_ref cur next olabel ids) = length ids.
Proof. by rewrite chain_ref_closed, length_imap. Qed.

Lemma fst_ref_sizes lex token2id word2id base entries :
  Forall2 (resolves token2id word2id) lex entries ->
  length (fst_ref base entries) = total_tokens lex /\
  (state_after base entries
   = base + Z.of_nat (total_tokens lex) - Z.of_nat (length lex))%Z.
Proof.
  intros H. revert base.
  induction H as [|[word prons] [wid ids] lex entries Hr _ IH]; intros base.
  - simpl. unfold total_tokens. simpl. lia.
  - destruct Hr as (Hne & _ & Hids). apply Forall2_length in Hids.
    destruct (IH (base + Z.of_nat (length ids - 1))%Z) as [IH1 IH2].
    cbn [fst_ref state_after]. rewrite length_app, chain_ref_length, IH1, IH2.
    unfold total_tokens. cbn [map sum_list length]. simpl.
    destruct prons; [done|]. simpl in *. lia.
Qed.

(** Only the first arc of a chain can put out a label. *)
Lemma chain_ref_emits cur next olabel (ids : list Z) s :
  emits (chain_ref cur next olabel ids) s <->
  s = cur /\ olabel <> 0%Z /\ ids <> [].
Proof.
  rewrite chain_ref_closed. unfold emits. split.
  - intros (arc & Hin & Hk & Ho).
    apply list_elem_of_lookup_1 in Hin as [i Hi].
    apply list_lookup_imap_Some in Hi as (tok & Htok & ->).
    unfold chain_arc, olabel_of, row_key in *. simpl in *.
    destruct i; simpl in *; [|done].
    split; [done|]. split; [done|]. by destruct ids.
  - intros (-> & Ho & Hne). destruct ids as [|tok ids]; [done|].
    eexists. split; [apply list_elem_of_lookup; exists 0; reflexivity|].
    done.
Qed.

Lemma emits_app l1 l2 s : emits (l1 ++ l2) s <-> emits l1 s \/ emits l2 s.
Proof.
  unfold emits. split.
  - intros (arc & [?|?]%elem_of_app & ?); [left | right]; by exists arc.
  - intros [(arc & ? & ?)|(arc & ? & ?)]; exists arc;
      (split; [apply elem_of_app; by auto | done]).
Qed.

Lemma fst_ref_emits lex token2id word2id base entries s :
  Forall2 (resolves token2id word2id) lex entries ->
  emits (fst_ref base entries) s <->
  s = loop_state /\
  exists word prons wid,
    (word, prons) ∈ lex /\ word2id !! word = Some wid /\ wid <> 0%Z.
Proof.
  intros H. revert base.
  induction H as [|[word prons] [wid ids] lex entries Hr _ IH]; intros base.
  - simpl. split.
    + intros (arc & Hin & _). by apply elem_of_nil in Hin.
    + intros (_ & ? & ? & ? & Hin & _). by apply elem_of_nil in Hin.
  - cbn [fst_ref]. rewrite emits_app, chain_ref_emits, IH.
    destruct Hr as (Hne & Hw & Hids). split.
    + intros [(-> & Ho & _)|(-> & word' & prons' & wid' & Hin & Hw' & Ho)].
      * split; [done|]. exists word, prons, wid. split; [by left | done].
      * split; [done|]. exists word', prons', wid'. split; [by right | done].
    + intros (-> & word' & prons' & wid' & Hin & Hw' & Ho).
      apply elem_of_cons in Hin as [[= -> ->]|Hin].
      * left. split; [done|]. split; [congruence|].
        apply Forall2_length in Hids. destruct prons, ids; done.
      * right. split; [done|]. by exists word', prons', wid'.
Qed.

(** A chain is a path from its first state back to the loop state. *)
Lemma chain_ref_path cur next olabel (ids : list Z) :
  ids <> [] ->
  is_path cur (chain_ref cur next olabel ids) loop_state /\
  ilabel_of <$> chain_ref cur next olabel ids = ids /\
  olabel_of <$> chain_ref cur next olabel ids
  = olabel :: replicate (length ids - 1) eps.
Proof.
  revert cur next olabel. induction ids as [|tok ids IH]; [done|].
  intros cur next ol _. destruct ids as [|tok' ids]; [done|].
  change (chain_ref cur next ol (tok :: tok' :: ids))
    with ([cur; next; tok; ol; 0%Z]
          :: chain_ref next (next + 1) eps (tok' :: ids)).
  destruct (IH next (next + 1)%Z eps) as (Hp & Hi & Ho); [done|].
  split; [split; [done | exact Hp]|].
  rewrite !fmap_cons, Hi, Ho. split; [done|].
  simpl. by rewrite Nat.sub_0_r.
Qed.

(** Every entry has its chain among the arcs. *)
Lemma fst_ref_chain lex token2id word2id base entries word prons :
  Forall2 (resolves token2id word2id) lex entries ->
  (word, prons) ∈ lex ->
  exists wid ids next,
    resolves token2id word2id (word, prons) (wid, ids) /\
    forall arc, arc ∈ chain_ref loop_state next wid ids ->
                arc ∈ fst_ref base entries.
Proof.
  intros H. revert base.
  induction H as [|[word' prons'] [wid ids] lex entries Hr _ IH];
    intros base Hin; [by apply elem_of_nil in Hin|].
  apply elem_of_cons in Hin as [[= -> ->]|Hin].
  - exists wid, ids, base. split; [done|]. intros arc Harc.
    cbn [fst_ref]. apply elem_of_app. by left.
  - destruct (IH (base + Z.of_nat (length ids - 1))%Z Hin)
      as (wid' & ids' & next & Hr' & Hsub).
    exists wid', ids', next. split; [done|]. intros arc Harc.
    cbn [fst_ref]. apply elem_of_app. right. by apply Hsub.
Qed.
(** How an entry makes the builder fail. *)
Lemma entry_step_empty token2id word2id st word :
  entry_step token2id word2id st (word, [])
  = Raise (AssertionError (Some (word +:+ " has no pronunciations"))).
Proof. done. Qed.

Lemma entry_step_no_word token2id word2id st word prons :
  prons <> [] -> word2id !! word = None ->
  entry_step token2id word2id st (word, prons) = Raise (KeyError word).
Proof.
  intros Hne Hw. unfold entry_step, assert, lookup_id.
  destruct prons; [done|]. cbn [length Nat.ltb Nat.leb mbind result_bind].
  by rewrite Hw.
Qed.

Lemma lookup_ids_missing token2id (good rest : list string) sym :
  Forall (fun s => is_Some (token2id !! s)) good ->
  token2id !! sym = None ->
  lookup_ids token2id (good ++ sym :: rest) = Raise (KeyError sym).
Proof.
  intros Hgood Hsym. induction Hgood as [|s good [i Hi] _ IH]; simpl.
  - unfold lookup_id. by rewrite Hsym.
  - unfold lookup_id at 1. rewrite Hi. cbn [mbind result_bind]. by rewrite IH.
Qed.

Lemma entry_step_no_token token2id word2id st word good sym rest :
  is_Some (word2id !! word) ->
  Forall (fun s => is_Some (token2id !! s)) good ->
  token2id !! sym = None ->
  entry_step token2id word2id st (word, good ++ sym :: rest)
  = Raise (KeyError sym).
Proof.
  intros [wid Hw] Hgood Hsym. unfold entry_step, assert.
  assert ((0 <? length (good ++ sym :: rest))%nat = true) as ->.
  { apply Nat.ltb_lt. rewrite length_app. simpl. lia. }
  cbn [mbind result_bind]. unfold lookup_id at 1. rewrite Hw.
  cbn [mbind result_bind]. by rewrite lookup_ids_missing.
Qed.

(** The builder fails as its loop over the entries does. *)
Lemma lexicon_to_fst_no_sil_raise lex token2id word2id b pre e post err :
  token2id !! "<unk>" = Some 0%Z -> word2id !! "<eps>" = Some 0%Z ->
  lex = pre ++ e :: post ->
  Forall (known token2id word2id) pre ->
  (forall st, entry_step token2id word2id st e = Raise err) ->
  lexicon_to_fst_no_sil lex token2id word2id b = Raise err.
Proof.
  intros Hunk Heps -> Hpre He.
  unfold lexicon_to_fst_no_sil, lexicon_arcs, lookup_id, assert.
  rewrite Hunk, Heps. cbn [mbind result_bind Z.eqb].
  rewrite for_each_app.
  destruct (entries_loop_ok token2id word2id pre (FstState [] 1) Hpre)
    as [st1 ->].
  cbn [mbind result_bind for_each]. by rewrite He.
Qed.
End more_on_fst.

(** ** The states of the automaton *)

Section states.
Implicit Types (lex : Lexicon) (token2id word2id : gmap string Z).

Lemma filter_all {A} (P : A -> Prop) `{forall x, Decision (P x)} (l : list A) :
  Forall P l -> filter P l = l.
Proof.
  induction 1 as [|x l Hx _ IH]; [done|].
  by rewrite filter_cons, decide_True, IH.
Qed.

(** The sources of a chain are its first state and then the new states;
    these are also the states its arcs go to, before the loop state. *)
Lemma chain_ref_states cur next olabel (ids : list Z) :
  ids <> [] -> (1 <= next)%Z ->
  filter (fun s => s <> 0%Z) (dst_of <$> chain_ref cur next olabel ids)
  = seqZ next (Z.of_nat (length ids - 1)) /\
  row_key <$> chain_ref cur next olabel ids
  = cur :: seqZ next (Z.of_nat (length ids - 1)).
Proof.
  revert cur next olabel. induction ids as [|tok ids IH]; [done|].
  intros cur next ol _ Hnext. destruct ids as [|tok' ids]; [done|].
  change (chain_ref cur next ol (tok :: tok' :: ids))
    with ([cur; next; tok; ol; 0%Z]
          :: chain_ref next (next + 1) eps (tok' :: ids)).
  destruct (IH next (next + 1)%Z eps) as [Hd Hs]; [done | lia |].
  rewrite !fmap_cons, filter_cons, Hd, Hs.
  change (dst_of [cur; next; tok; ol; 0%Z]) with next.
  change (row_key [cur; next; tok; ol; 0%Z]) with cur.
  rewrite decide_True by lia.
  assert (seqZ next (Z.of_nat (length (tok :: tok' :: ids) - 1))
          = next :: seqZ (next + 1) (Z.of_nat (length (tok' :: ids) - 1)))
    as ->; [|done].
  rewrite seqZ_cons by (simpl; lia). f_equal. f_equal; simpl; lia.
Qed.

Lemma fst_ref_states lex token2id word2id base entries :
  Forall2 (resolves token2id word2id) lex entries -> (1 <= base)%Z ->
  filter (fun s => s <> 0%Z) (dst_of <$> fst_ref base entries)
  = seqZ base (state_after base entries - base) /\
  filter (fun s => s <> 0%Z) (row_key <$> fst_ref base entries)
  = seqZ base (state_after base entries - base).
Proof.
  intros H. revert base.
  induction H as [|[word prons] [wid ids] lex entries Hr _ IH];
    intros base Hbase.
  - simpl. by rewrite Z.sub_diag.
  - destruct Hr as (Hne & _ & Hids).
    assert (ids <> []) as Hne'.
    { apply Forall2_length in Hids. by destruct prons, ids. }
    destruct (chain_ref_states loop_state base wid ids Hne' Hbase) as [Hd Hs].
    set (n := Z.of_nat (length ids - 1)) in *.
    destruct (IH (base + n)%Z) as [IHd IHs]; [lia|].
    pose proof (state_after_ge (base + n) entries) as Hge.
    cbn [fst_ref state_after]. fold n.
    rewrite !fmap_app, !filter_app, Hd, Hs, IHd, IHs.
    rewrite filter_cons, decide_False by (unfold loop_state; lia).
    rewrite filter_all by (apply Forall_seqZ; lia).
    replace (state_after (base + n) entries - base)%Z
      with (n + (state_after (base + n) entries - (base + n)))%Z by lia.
    by rewrite seqZ_app by lia.
Qed.

(** Self-loops can only be asked for by the loop state. *)
Lemma loop_states lex token2id word2id st (ss : list Z) :
  lexicon_arcs lex token2id word2id = Ok st ->
  NoDup ss -> (forall s, s ∈ ss <-> emits (arcs st) s) ->
  ((exists word prons wid,
      (word, prons) ∈ lex /\ word2id !! word = Some wid /\ wid <> 0%Z) /\
   ss = [loop_state]) \/
  ((forall word prons wid,
      (word, prons) ∈ lex -> word2id !! word = Some wid -> wid = 0%Z) /\
   ss = []).
Proof.
  intros (_ & _ & entries & Hres & -> & _)%lexicon_arcs_spec Hnd Hss.
  pose proof (fun s => fst_ref_emits lex token2id word2id 1 entries s Hres)
    as Hem.
  destruct ss as [|s ss].
  - right. split; [|done]. intros word prons wid Hin Hw.
    destruct (decide (wid = 0%Z)) as [|Hne]; [done|]. exfalso.
    apply (not_elem_of_nil loop_state), Hss, Hem.
    split; [done|]. by exists word, prons, wid.
  - left. assert (s = loop_state /\
                  exists word prons wid, (word, prons) ∈ lex /\
                    word2id !! word = Some wid /\ wid <> 0%Z) as [-> Hex].
    { apply Hem, Hss. by left. }
    split; [done|]. f_equal. destruct ss as [|s' ss]; [done|]. exfalso.
    assert (s' = loop_state) as ->.
    { apply (Hem s'), Hss. right. by left. }
    apply NoDup_cons in Hnd as [Hnin _]. apply Hnin. by left.
Qed.
End states.

(** ** More on add_self_loops *)

Section more_on_self_loops.
Implicit Types (l : list (list Z)) (states : gset Z).

Lemma scan_arc_Ok states arc :
  length arc = 5 -> exists states', scan_arc states arc = Ok states'.
Proof.
  intros Hlen.
  destruct arc as [|src [|dst [|il [|ol [|sc [|x arc]]]]]]; try done.
  by eexists.
Qed.

Lemma scan_arc_raise states arc :
  length arc <> 5 -> scan_arc states arc = Raise ValueError.
Proof.
  intros Hlen.
  by destruct arc as [|src [|dst [|il [|ol [|sc [|x arc]]]]]].
Qed.

Lemma scan_loop_raise l states :
  Exists (fun arc => length arc <> 5) l ->
  for_each scan_arc l states = Raise ValueError.
Proof.
  intros H. revert states.
  induction H as [arc l Ha|arc l _ IH]; intros states; cbn [for_each].
  - by rewrite scan_arc_raise.
  - destruct (decide (length arc = 5)) as [Hlen|Hlen].
    + destruct (scan_arc_Ok states arc Hlen) as [states' ->].
      cbn [mbind result_bind]. apply IH.
    + by rewrite scan_arc_raise.
Qed.

Lemma add_self_loops_raise l dp dw :
  Exists (fun arc => length arc <> 5) l ->
  add_self_loops l dp dw = Raise ValueError.
Proof.
  intros H. unfold add_self_loops, add_self_loops_in.
  by rewrite scan_loop_raise.
Qed.

Lemma emits_source l s : emits l s -> s ∈ row_key <$> l.
Proof.
  intros (arc & Hin & <- & _). apply list_elem_of_fmap. by exists arc.
Qed.

Lemma emits_none l :
  Forall (fun arc => olabel_of arc = 0%Z) l <-> forall s, ~ emits l s.
Proof.
  rewrite Forall_forall. split.
  - intros H s (arc & Hin & _ & Ho). by apply Ho, H.
  - intros H arc Hin. destruct (decide (olabel_of arc = 0%Z)) as [|Hne];
      [done|]. exfalso. apply (H (row_key arc)). by exists arc.
Qed.
End more_on_self_loops.

(** ** Dicts and generate_id_map *)

Section id_maps.
Implicit Types (d : list (string * Z)) (k sym : string) (v : Z)
  (symbols : list string).

Lemma dict_get_set d k v k' :
  dict_get (dict_set d k v) k'
  = if decide (k = k') then Ok v else dict_get d k'.
Proof.
  induction d as [|[k0 v0] d IH]; simpl.
  - by destruct (decide (k = k')).
  - destruct (decide (k0 = k)) as [->|Hne]; simpl.
    + by destruct (decide (k = k')).
    + destruct (decide (k0 = k')) as [->|Hne'].
      * by rewrite decide_False by done.
      * exact IH.
Qed.

Lemma dict_set_new d k v : k ∉ d.*1 -> dict_set d k v = d ++ [(k, v)].
Proof.
  induction d as [|[k0 v0] d IH]; [done|]. rewrite fmap_cons. cbn [fst].
  intros [Hne Hnin]%not_elem_of_cons. cbn [dict_set].
  rewrite decide_False by done. by rewrite IH.
Qed.

Lemma dict_set_keys d k v :
  (dict_set d k v).*1 = if decide (k ∈ d.*1) then d.*1 else d.*1 ++ [k].
Proof.
  induction d as [|[k0 v0] d IH]; [done|]. cbn [dict_set].
  destruct (decide (k0 = k)) as [->|Hne]; rewrite !fmap_cons; cbn [fst].
  - by rewrite decide_True by (by left).
  - rewrite IH. destruct (decide (k ∈ d.*1)) as [Hin|Hnin].
    + by rewrite decide_True by (by right).
    + rewrite decide_False; [done|].
      intros [?|?]%elem_of_cons; congruence.
Qed.

Lemma dict_get_table d k v :
  table_of d !! k = Some v <-> dict_get d k = Ok v.
Proof.
  unfold table_of. induction d as [|[k0 v0] d IH]; simpl.
  - by rewrite lookup_empty.
  - destruct (decide (k0 = k)) as [->|Hne].
    + rewrite lookup_insert_eq. split; intros [=]; by subst.
    + by rewrite lookup_insert_ne.
Qed.

Lemma dict_get_missing d k : k ∉ d.*1 -> dict_get d k = Raise (KeyError k).
Proof.
  induction d as [|[k0 v0] d IH]; [done|]. rewrite fmap_cons. cbn [fst].
  intros [Hne Hnin]%not_elem_of_cons. cbn [dict_get].
  rewrite decide_False by done. auto.
Qed.

Lemma enumerate_snoc {A} (l : list A) x :
  enumerate (l ++ [x]) = enumerate l ++ [(length l, x)].
Proof.
  unfold enumerate. rewrite imap_app. simpl. by rewrite Nat.add_0_r.
Qed.

Lemma generate_id_map_snoc symbols sym :
  generate_id_map (symbols ++ [sym])
  = dict_set (generate_id_map symbols) sym (Z.of_nat (length symbols)).
Proof.
  unfold generate_id_map. by rewrite enumerate_snoc, foldl_app.
Qed.

Lemma generate_id_map_keys symbols :
  NoDup (generate_id_map symbols).*1 /\
  forall k, k ∈ (generate_id_map symbols).*1 <-> k ∈ symbols.
Proof.
  induction symbols as [|sym symbols [IHnd IH]] using rev_ind.
  - split; [constructor | done].
  - rewrite generate_id_map_snoc, dict_set_keys.
    destruct (decide (sym ∈ (generate_id_map symbols).*1)) as [Hin|Hnin].
    + split; [done|]. intros k. rewrite IH, elem_of_app, list_elem_of_singleton.
      split; [by left|]. intros [?|Hk]; [done | subst k; by apply IH].
    + split.
      * apply NoDup_app. split; [done|]. split; [|apply NoDup_singleton].
        intros k Hk Hk'%list_elem_of_singleton. by subst k.
      * intros k. rewrite !elem_of_app, IH. done.
Qed.
End id_maps.

(** ** The text of write_lexicon and write_mapping *)

Section texts.
Implicit Types (s t : string) (lex : Lexicon) (d : list (string * Z)).

Lemma split_newline s : split (s +:+ newline) = split s.
Proof.
  unfold newline. rewrite split_app_sep by done.
  by rewrite app_nil_r.
Qed.

Lemma text_loop {A} (line : A -> string) (l : list A) acc :
  foldl (fun f x => f +:+ line x) acc l
  = acc +:+ foldl (fun f x => f +:+ line x) "" l.
Proof.
  revert acc. induction l as [|x l IH]; intros acc; simpl.
  - by rewrite append_empty_r.
  - rewrite (IH (acc +:+ line x)), (IH ("" +:+ line x)).
    change ("" +:+ line x) with (line x). by rewrite append_assoc.
Qed.

Lemma write_lexicon_cons e lex :
  write_lexicon (e :: lex) = entry_line e +:+ write_lexicon lex.
Proof. unfold write_lexicon. simpl. by rewrite text_loop. Qed.

Lemma write_mapping_cons item d :
  write_mapping (item :: d) = mapping_line item +:+ write_mapping d.
Proof. unfold write_mapping. simpl. by rewrite text_loop. Qed.

(** A line followed by more text: the fields of the line, then what the
    rest of the text splits into. *)
Lemma split_line s t rest :
  split ((s +:+ " " +:+ t +:+ newline) +:+ rest)
  = split s ++ split t ++ split rest.
Proof.
  rewrite !append_assoc.
  change (" " +:+ t +:+ newline +:+ rest)
    with (String " " (t +:+ newline +:+ rest)).
  rewrite split_app_sep by done. f_equal.
  unfold newline. change (String (ascii_of_nat 10) "" +:+ rest)
    with (String (ascii_of_nat 10) rest).
  by rewrite split_app_sep.
Qed.

Lemma pretty_N_go_nonempty (x : N) s : s <> "" -> pretty_N_go x s <> "".
Proof.
  revert s. induction (N.lt_wf_0 x) as [x _ IH]; intros s Hs.
  destruct (decide (x = 0%N)) as [->|Hx]; [done|].
  rewrite pretty_N_go_step by lia. apply IH; [apply N.div_lt; lia | done].
Qed.

Lemma pretty_N_ok (x : N) : token_ok (pretty x) = true.
Proof.
  assert (has_space (pretty x) = false) as Hsp.
  { unfold pretty, pretty_N. case_decide; [done|].
    apply has_space_pretty_N_go. }
  assert (pretty x <> "") as Hne.
  { unfold pretty, pretty_N. case_decide; [done|].
    rewrite pretty_N_go_step by lia. by apply pretty_N_go_nonempty. }
  unfold token_ok. destruct (pretty x); [done|]. by rewrite Hsp.
Qed.

(** [str(i)] of an integer is one field. *)
Lemma pretty_Z_ok (i : Z) : token_ok (pretty i) = true.
Proof.
  destruct i as [|x|x].
  - done.
  - apply (pretty_N_ok (N.pos x)).
  - change (pretty (Z.neg x)) with ("-" +:+ pretty (N.pos x)).
    pose proof (pretty_N_ok (N.pos x)) as Hok.
    change ("-" +:+ pretty (N.pos x)) with (String "-" (pretty (N.pos x))).
    destruct (pretty (N.pos x)) as [|c s] eqn:Hp; [done|].
    unfold token_ok in *. cbn [has_space] in *.
    apply negb_true_iff in Hok. apply negb_true_iff.
    change (is_space "-") with false. by rewrite orb_false_l.
Qed.

Lemma generate_id_map_items (symbols : list string) :
  NoDup symbols ->
  generate_id_map symbols = imap (fun i sym => (sym, Z.of_nat i)) symbols.
Proof.
  induction symbols as [|sym symbols IH] using rev_ind; [done|].
  intros (Hnd & Hnin & _)%NoDup_app.
  rewrite generate_id_map_snoc, imap_app. simpl. rewrite Nat.add_0_r.
  rewrite dict_set_new; [by rewrite IH|].
  rewrite (proj2 (generate_id_map_keys symbols)).
  intros Hin. by apply (Hnin sym Hin), list_elem_of_singleton.
Qed.
End texts.

(** ** generate_lexicon and the words of main *)

Section words.
Implicit Types (words excl l : list string) (w x : string).

Lemma lexicon_loop (acc : Lexicon) (l : Lexicon) :
  foldl (fun lexicon '(word, pieces) => lexicon ++ [(word, pieces)]) acc l
  = acc ++ l.
Proof.
  revert acc. induction l as [|[word pieces] l IH]; intros acc; simpl.
  - by rewrite app_nil_r.
  - by rewrite IH, <-app_assoc.
Qed.

Lemma generate_lexicon_zip encode words :
  generate_lexicon encode words
  = zip words (encode words) ++ [("<UNK>", ["<unk>"])].
Proof. unfold generate_lexicon. by rewrite lexicon_loop. Qed.







Lemma list_remove_filter w l :
  NoDup l -> list_remove w l = filter (fun x => x <> w) l.
Proof.
  induction 1 as [|y l Hnin Hnd IH]; [done|]. simpl.
  destruct (decide (y = w)) as [->|Hne].
  - rewrite filter_cons, decide_False by tauto.
    symmetry. apply filter_all, Forall_forall. by intros x Hx ->.
  - by rewrite filter_cons, decide_True, IH.
Qed.
End words.

(** ** The builder on the result of add_disambig_symbols *)

Section pipeline.
Implicit Types (lex out : Lexicon) (token2id word2id : gmap string Z).

Lemma lexicon_to_fst_no_sil_known lex token2id word2id b rows :
  lexicon_to_fst_no_sil lex token2id word2id b = Ok rows ->
  token2id !! "<unk>" = Some 0%Z /\ word2id !! "<eps>" = Some 0%Z /\
  Forall (known token2id word2id) lex.
Proof.
  intros (st & extra & Hst & _ & _)%lexicon_to_fst_no_sil_unfold.
  apply lexicon_arcs_spec in Hst as (Hunk & Heps & entries & Hres & _).
  split; [done|]. split; [done|].
  induction Hres; constructor; [by eapply resolves_known | done].
Qed.

(** The entries of the result are in the tables that hold the lexicon and
    the symbols [#1] .. [#m]. *)
Lemma result_known lex out m token2id word2id :
  lexicon_ok lex = true ->
  add_disambig_symbols lex = Ok (out, m) ->
  Forall (known token2id word2id) lex ->
  (forall k, 1 <= k <= m -> is_Some (token2id !! disambig_symbol k)) ->
  Forall (known token2id word2id) out.
Proof.
  intros Hok Hrun Hlex Hsym. apply Forall_forall.
  intros [w q] [i Hi]%list_elem_of_lookup_1.
  pose proof (add_disambig_symbols_length lex out m Hrun) as Hlen.
  destruct (lookup_lt_is_Some_2 lex i) as [[w' p] Hi'].
  { rewrite <-Hlen. by eapply lookup_lt_Some. }
  rewrite Forall_forall in Hlex.
  destruct (Hlex (w', p)) as (Hne & Hw & Hp);
    [by eapply list_elem_of_lookup_2|]. simpl in *.
  destruct (add_disambig_symbols_lookup_ok lex out m i w' p Hok Hrun Hi')
    as [[_ Ho]|(_ & Ho & Hidx)]; rewrite Hi in Ho; injection Ho as -> ->.
  - done.
  - split; [by destruct p|]. split; [done|]. simpl.
    apply Forall_app. split; [done|]. constructor; [by apply Hsym|].
    constructor.
Qed.
End pipeline.

(** * Further properties of add_disambig_symbols *)

(** X1.  The three outcomes of add_disambig_symbols.  It returns exactly
    when no pronunciation is empty and none is the single empty token;
    it raises the IndexError of [pop] exactly when some pronunciation is
    empty; it fails the assertion [phnseq != ""] exactly when no
    pronunciation is empty and some pronunciation is [[""]]. *)
Theorem add_disambig_symbols_outcome (lex : Lexicon) :
  ((exists out m, add_disambig_symbols lex = Ok (out, m)) <->
   Forall (fun e : string * list string => e.2 <> [] /\ e.2 <> [""]) lex) /\
  (add_disambig_symbols lex = Raise IndexError <->
   Exists (fun e : string * list string => e.2 = []) lex) /\
  (add_disambig_symbols lex = Raise (AssertionError None) <->
   Forall (fun e : string * list string => e.2 <> []) lex /\
   Exists (fun e : string * list string => e.2 = [""]) lex).
Proof.
  destruct (decide (Exists (fun e : string * list string => e.2 = []) lex))
    as [Hex|Hnex].
  - (* some pronunciation is empty *)
    assert (add_disambig_symbols lex = Raise IndexError) as Hr.
    { apply Exists_exists in Hex as ([w p] & Hin & Hp). simpl in Hp. subst p.
      by apply (add_disambig_symbols_raise lex w). }
    rewrite Hr. split; [|split].
    + split; [by intros (? & ? & ?)|]. intros Hall. exfalso.
      apply Exists_exists in Hex as (e & Hin & Hp).
      rewrite Forall_forall in Hall. by destruct (Hall e Hin).
    + done.
    + split; [done|]. intros [Hall _]. exfalso.
      apply Exists_exists in Hex as (e & Hin & Hp).
      rewrite Forall_forall in Hall. by apply (Hall e Hin).
  - assert (Forall (fun e : string * list string => e.2 <> []) lex) as Hne.
    { apply Forall_forall. intros e Hin Hp. apply Hnex, Exists_exists.
      by exists e. }
    destruct (mark_loop_lexicon_ok lex ∅ Hne) as [d Hd].
    destruct (decide (Exists (fun e : string * list string => e.2 = [""]) lex))
      as [Hex|Hnex'].
    + (* no empty pronunciation, some empty phone sequence *)
      assert (add_disambig_symbols lex = Raise (AssertionError None)) as Hr.
      { unfold add_disambig_symbols, mark_subseqs. rewrite Hd.
        cbn [mbind result_bind]. rewrite assign_loop_raise; [done|].
        eapply Exists_impl; [done|]. intros [w p] Hp. simpl in Hp.
        unfold phnseq_of. simpl. by rewrite Hp. }
      rewrite Hr. split; [|split].
      * split; [by intros (? & ? & ?)|]. intros Hall. exfalso.
        apply Exists_exists in Hex as (e & Hin & Hp).
        rewrite Forall_forall in Hall. by destruct (Hall e Hin).
      * done.
      * done.
    + assert (Forall (fun e : string * list string => e.2 <> [] /\ e.2 <> [""])
                     lex) as Hall.
      { apply Forall_forall. intros e Hin. rewrite Forall_forall in Hne.
        split; [by apply Hne|]. intros Hp. apply Hnex', Exists_exists.
        by exists e. }
      destruct (add_disambig_symbols_ok lex) as (out & m & Hrun).
      { eapply Forall_impl; [done|]. intros [w p] [H1 H2]. split; [done|].
        unfold phnseq_of. simpl in *. rewrite join_empty. by intros [?|?]. }
      rewrite Hrun. split; [|split].
      * split; [done | by eexists _, _].
      * done.
      * split; [done | by intros [_ ?]].
Qed.

(** X2.  The result has the words of the lexicon, in the same order: the
    function changes pronunciations only, and neither drops nor adds nor
    moves an entry. *)
Theorem add_disambig_symbols_words (lex out : Lexicon) (m : nat) :
  add_disambig_symbols lex = Ok (out, m) ->
  out.*1 = lex.*1 /\ length out = length lex.
Proof.
  intros Hrun. split; [|by eapply add_disambig_symbols_length].
  apply add_disambig_symbols_unfold in Hrun as (d & _ & _ & -> & _).
  apply assign_ref_words.
Qed.

Lemma add_disambig_symbols_words_witness :
  [("CAT", ["k"; "a"; "t"; "#1"]); ("CATS", ["k"; "a"; "t"; "s"])].*1
  = lexicon_B.*1 /\
  length [("CAT", ["k"; "a"; "t"; "#1"]); ("CATS", ["k"; "a"; "t"; "s"])]
  = length lexicon_B.
Proof.
  apply (add_disambig_symbols_words lexicon_B _ 1). vm_compute. reflexivity.
Defined.

(** X3.  Whatever the tokens of the lexicon are, the pronunciation of a
    rewritten entry is the joined phone sequence split again at
    whitespace, followed by the disambiguation symbol: all its tokens are
    non-empty and free of whitespace, and the symbol is its last token. *)
Theorem rewritten_entry_shape (lex out : Lexicon) (m i : nat) (w : string)
    (p : list string) :
  add_disambig_symbols lex = Ok (out, m) ->
  lex !! i = Some (w, p) ->
  ambiguous (join " " p) lex ->
  exists q,
    out !! i = Some (w, q) /\
    q = split (join " " p)
        ++ [disambig_symbol (occ (join " " p) (take (S i) lex))] /\
    Forall (fun t => token_ok t = true) q.
Proof.
  intros Hrun Hi Hamb.
  destruct (add_disambig_symbols_lookup lex out m i w p Hrun Hi)
    as [(H1 & H2 & _)|(_ & Ho & _)]; [destruct Hamb; done|].
  eexists. split; [exact Ho|]. rewrite rewritten_split. split; [done|].
  apply Forall_app. split; [apply split_tokens_ok|].
  constructor; [apply disambig_symbol_ok | constructor].
Qed.

Lemma rewritten_entry_shape_witness :
  exists q,
    [("A", ["a"; "b"; "#1"]); ("B", ["a"; "b"; "#2"])] !! 0 = Some ("A", q) /\
    q = split (join " " ["a b"])
        ++ [disambig_symbol (occ (join " " ["a b"]) (take 1 lexicon_spaced))] /\
    Forall (fun t => token_ok t = true) q.
Proof.
  apply (rewritten_entry_shape lexicon_spaced _ 2 0 "A" ["a b"]).
  - vm_compute. reflexivity.
  - reflexivity.
  - left. vm_compute. discriminate.
Defined.

(** X4.  The returned maximum is the largest number of entries sharing an
    ambiguous phone sequence: it bounds that number for every ambiguous
    entry, it is that number for some entry unless it is 0, it is 0
    exactly when no entry is ambiguous, and it is at most the number of
    entries. *)
Theorem max_disambig_is_largest_group (lex out : Lexicon) (m : nat) :
  add_disambig_symbols lex = Ok (out, m) ->
  (forall w p, (w, p) ∈ lex -> ambiguous (join " " p) lex ->
               occ (join " " p) lex <= m) /\
  (0 < m -> exists w p, (w, p) ∈ lex /\ ambiguous (join " " p) lex /\
                        occ (join " " p) lex = m) /\
  (m = 0 <-> forall w p, (w, p) ∈ lex -> ~ ambiguous (join " " p) lex) /\
  m <= length lex.
Proof.
  intros Hrun.
  assert (forall w p, (w, p) ∈ lex -> ambiguous (join " " p) lex ->
                      1 <= occ (join " " p) lex <= m) as Hbound.
  { intros w p Hin Hamb.
    pose proof (occ_pos_elem lex (w, p) Hin) as Hpos.
    destruct (last_occurrence lex _ Hpos) as (i & [w' p'] & Hi & Hk & Hocc).
    unfold phnseq_of in Hk, Hocc, Hpos. simpl in Hk, Hocc, Hpos.
    destruct (add_disambig_symbols_lookup lex out m i w' p' Hrun Hi)
      as [(H1 & H2 & _)|(_ & _ & Hidx)].
    - rewrite Hk in H1, H2. destruct Hamb; done.
    - rewrite Hk, Hocc in Hidx. done. }
  assert (0 < m -> exists w p, (w, p) ∈ lex /\ ambiguous (join " " p) lex /\
                               occ (join " " p) lex = m) as Hatt.
  { intros Hm.
    destruct (add_disambig_symbols_max lex out m Hrun)
      as [->|(i & w & p & Hi & Hamb & Hidx)]; [lia|].
    pose proof (list_elem_of_lookup_2 _ _ _ Hi) as Hin.
    exists w, p. split; [done|]. split; [done|].
    pose proof (Hbound w p Hin Hamb).
    pose proof (occ_take_le lex (S i) (join " " p)). lia. }
  split; [intros w p Hin Hamb; by apply (Hbound w p)|].
  split; [done|]. split.
  - split.
    + intros -> w p Hin Hamb. pose proof (Hbound w p Hin Hamb). lia.
    + intros Hna. destruct (decide (m = 0)) as [|Hm]; [done|].
      destruct Hatt as (w & p & Hin & Hamb & _); [lia|].
      by apply (Hna w p Hin) in Hamb.
  - destruct (decide (m = 0)) as [->|Hm]; [lia|].
    destruct Hatt as (w & p & _ & _ & <-); [lia|]. apply occ_le_length.
Qed.

Lemma max_disambig_is_largest_group_witness :
  (forall w p, (w, p) ∈ lexicon_A -> ambiguous (join " " p) lexicon_A ->
               occ (join " " p) lexicon_A <= 2) /\
  (0 < 2 -> exists w p, (w, p) ∈ lexicon_A /\
                        ambiguous (join " " p) lexicon_A /\
                        occ (join " " p) lexicon_A = 2) /\
  (2 = 0 <->
   forall w p, (w, p) ∈ lexicon_A -> ~ ambiguous (join " " p) lexicon_A) /\
  2 <= length lexicon_A.
Proof.
  apply (max_disambig_is_largest_group lexicon_A
           [("A", ["a"; "#1"]); ("B", ["a"; "#2"])] 2).
  vm_compute. reflexivity.
Defined.

(** X5.  Running the function on its own result changes nothing: for a
    lexicon of well-formed tokens none of which is one of the symbols
    handed out, the result is returned unchanged with maximum 0. *)
Theorem add_disambig_symbols_twice (lex out : Lexicon) (m : nat) :
  lexicon_ok lex = true ->
  add_disambig_symbols lex = Ok (out, m) ->
  symbols_fresh m lex ->
  add_disambig_symbols out = Ok (out, 0).
Proof.
  intros Hok Hrun Hfresh.
  pose proof (add_disambig_symbols_keeps_ok lex out m Hok Hrun) as Hok'.
  apply add_disambig_symbols_id; [done|].
  intros i w p Hi.
  pose proof (list_elem_of_lookup_2 _ _ _ Hi) as Hin.
  apply (unambiguous_key out w p Hok' Hin).
  - apply (occurs_once_at out i (w, p) Hi). intros j e' Hji Hj Heq.
    apply (no_prefix_between lex out m j i e' (w, p)); try done.
    by rewrite Heq.
  - intros (w' & q & [j Hj]%list_elem_of_lookup_1 & Hpre & Hneq).
    destruct (decide (i = j)) as [->|Hij].
    { rewrite Hi in Hj. congruence. }
    by apply (no_prefix_between lex out m i j (w, p) (w', q)).
Qed.

Lemma add_disambig_symbols_twice_witness :
  add_disambig_symbols [("A", ["a"; "#1"]); ("B", ["a"; "#2"])]
  = Ok ([("A", ["a"; "#1"]); ("B", ["a"; "#2"])], 0).
Proof.
  apply (add_disambig_symbols_twice lexicon_A _ 2).
  - reflexivity.
  - vm_compute. reflexivity.
  - intros k w p Hk Hin Hel.
    assert (p = ["a"]) as ->.
    { unfold lexicon_A in Hin.
      repeat (apply elem_of_cons in Hin as [Hin|Hin];
              [by injection Hin as _ ->|]).
      by apply elem_of_nil in Hin. }
    assert (k = 1 \/ k = 2) as [-> | ->] by lia;
      apply list_elem_of_In in Hel; simpl in Hel;
      destruct Hel as [Hel|[]]; vm_compute in Hel; discriminate Hel.
Defined.

(** X6.  With well-formed tokens, every token of the result is a token of
    the lexicon or one of the symbols #1 .. #max_disambig: these are all
    the symbols a token table needs besides those of the lexicon. *)
Theorem tokens_of_result (lex out : Lexicon) (m : nat) (w : string)
    (q : list string) (t : string) :
  lexicon_ok lex = true ->
  add_disambig_symbols lex = Ok (out, m) ->
  (w, q) ∈ out -> t ∈ q ->
  (exists p, (w, p) ∈ lex /\ t ∈ p) \/
  (exists k, 1 <= k <= m /\ t = disambig_symbol k).
Proof.
  intros Hok Hrun [i Hi]%list_elem_of_lookup_1 Ht.
  pose proof (add_disambig_symbols_length lex out m Hrun) as Hlen.
  destruct (lookup_lt_is_Some_2 lex i) as [[w' p] Hi'].
  { rewrite <-Hlen. by eapply lookup_lt_Some. }
  pose proof (list_elem_of_lookup_2 _ _ _ Hi') as Hin.
  destruct (add_disambig_symbols_lookup_ok lex out m i w' p Hok Hrun Hi')
    as [[_ Ho]|(_ & Ho & Hidx)]; rewrite Hi in Ho; injection Ho as -> ->.
  - left. by exists p.
  - apply elem_of_app in Ht as [Ht|Ht%list_elem_of_singleton].
    + left. by exists p.
    + right. eexists. split; [exact Hidx | exact Ht].
Qed.

Lemma tokens_of_result_witness :
  (exists p, ("CAT", p) ∈ lexicon_B /\ "#1" ∈ p) \/
  (exists k, 1 <= k <= 1 /\ "#1" = disambig_symbol k).
Proof.
  apply (tokens_of_result lexicon_B
           [("CAT", ["k"; "a"; "t"; "#1"]); ("CATS", ["k"; "a"; "t"; "s"])]
           1 "CAT" ["k"; "a"; "t"; "#1"] "#1").
  - reflexivity.
  - vm_compute. reflexivity.
  - by left.
  - do 3 right. by left.
Defined.

(** * Further properties of lexicon_to_fst_no_sil *)

(** X7.  The builder returns exactly when [<unk>] has token id 0, [<eps>]
    has word id 0, every entry has a pronunciation, its word in the word
    table and its tokens in the token table, and, if self-loops are asked
    for, [#0] is in both tables. *)
Theorem lexicon_to_fst_no_sil_returns (lex : Lexicon)
    (token2id word2id : gmap string Z) (need_self_loops : bool) :
  (exists rows,
     lexicon_to_fst_no_sil lex token2id word2id need_self_loops = Ok rows) <->
  token2id !! "<unk>" = Some 0%Z /\ word2id !! "<eps>" = Some 0%Z /\
  Forall (known token2id word2id) lex /\
  (need_self_loops = true ->
   is_Some (token2id !! "#0") /\ is_Some (word2id !! "#0")).
Proof.
  split.
  - intros [rows (st & extra & Hst & Hextra & _)%lexicon_to_fst_no_sil_unfold].
    apply lexicon_arcs_spec in Hst as (Hunk & Heps & entries & Hres & _).
    split; [done|]. split; [done|]. split.
    + clear Hextra. induction Hres; constructor; [|done].
      by eapply resolves_known.
    + intros ->. destruct Hextra as (dp & dw & ss & Hdp & Hdw & _).
      split; by eexists.
  - intros (Hunk & Heps & Hlex & Hsharp).
    by apply lexicon_to_fst_no_sil_ok.
Qed.

(** X8.  The first entry without a pronunciation stops the builder with
    an assertion error whose message names the word of that entry, when
    the reserved symbols are in place and the entries before it are in
    the tables. *)
Theorem empty_pronunciation_names_word (pre post : Lexicon) (word : string)
    (token2id word2id : gmap string Z) (need_self_loops : bool) :
  token2id !! "<unk>" = Some 0%Z -> word2id !! "<eps>" = Some 0%Z ->
  Forall (known token2id word2id) pre ->
  lexicon_to_fst_no_sil (pre ++ (word, []) :: post) token2id word2id
                        need_self_loops
  = Raise (AssertionError (Some (word +:+ " has no pronunciations"))).
Proof.
  intros Hunk Heps Hpre.
  eapply lexicon_to_fst_no_sil_raise; [done | done | done | done |].
  intros st. apply entry_step_empty.
Qed.

Lemma empty_pronunciation_names_word_witness :
  lexicon_to_fst_no_sil (lexicon_C ++ ("DOG", []) :: lexicon_C)
                        token2id_C word2id_C false
  = Raise (AssertionError (Some "DOG has no pronunciations")).
Proof.
  apply (empty_pronunciation_names_word lexicon_C lexicon_C "DOG"
           token2id_C word2id_C false).
  - reflexivity.
  - reflexivity.
  - repeat constructor; simpl; try (by eexists); done.
Defined.

(** X9.  A symbol missing from its table stops the builder with a
    KeyError that names it: the word of the first entry whose word is not
    in the word table, or else the first token of that entry that is not
    in the token table. *)
Theorem missing_symbol_named (pre post : Lexicon) (word : string)
    (prons : list string) (token2id word2id : gmap string Z)
    (need_self_loops : bool) :
  token2id !! "<unk>" = Some 0%Z -> word2id !! "<eps>" = Some 0%Z ->
  Forall (known token2id word2id) pre ->
  prons <> [] ->
  let run := lexicon_to_fst_no_sil (pre ++ (word, prons) :: post)
                                   token2id word2id need_self_loops in
  (word2id !! word = None -> run = Raise (KeyError word)) /\
  (forall good sym rest,
     is_Some (word2id !! word) ->
     prons = good ++ sym :: rest ->
     Forall (fun s => is_Some (token2id !! s)) good ->
     token2id !! sym = None ->
     run = Raise (KeyError sym)).
Proof.
  intros Hunk Heps Hpre Hne run. split.
  - intros Hw. eapply lexicon_to_fst_no_sil_raise; [done..|].
    intros st. by apply entry_step_no_word.
  - intros good sym rest Hw -> Hgood Hsym.
    eapply lexicon_to_fst_no_sil_raise; [done..|].
    intros st. by apply entry_step_no_token.
Qed.

Lemma missing_symbol_named_witness :
  (word2id_C !! "CATS" = None ->
   lexicon_to_fst_no_sil (lexicon_C ++ [("CATS", ["k"; "a"; "t"; "s"])])
                         token2id_C word2id_C false
   = Raise (KeyError "CATS")) /\
  (forall good sym rest,
     is_Some (word2id_C !! "CATS") ->
     ["k"; "a"; "t"; "s"] = good ++ sym :: rest ->
     Forall (fun s => is_Some (token2id_C !! s)) good ->
     token2id_C !! sym = None ->
     lexicon_to_fst_no_sil (lexicon_C ++ [("CATS", ["k"; "a"; "t"; "s"])])
                           token2id_C word2id_C false
     = Raise (KeyError sym)).
Proof.
  apply (missing_symbol_named lexicon_C [] "CATS" ["k"; "a"; "t"; "s"]
           token2id_C word2id_C false).
  - reflexivity.
  - reflexivity.
  - repeat constructor; simpl; try (by eexists); done.
  - discriminate.
Defined.



(** X11.  Self-loops land on the loop state only.  When some entry has a
    word with a non-zero id, asking for self-loops adds the single arc
    [(0, 0, token2id["#0"], word2id["#0"], 0)]; when every word of the
    lexicon has id 0, in particular for the empty lexicon, nothing is
    added. *)
Theorem self_loop_on_loop_state_only (lex : Lexicon)
    (token2id word2id : gmap string Z) (rows : list (list Z)) :
  lexicon_to_fst_no_sil lex token2id word2id true = Ok rows ->
  exists rows0 dp dw,
    lexicon_to_fst_no_sil lex token2id word2id false = Ok rows0 /\
    token2id !! "#0" = Some dp /\ word2id !! "#0" = Some dw /\
    ((exists word prons wid,
        (word, prons) ∈ lex /\ word2id !! word = Some wid /\ wid <> 0%Z) ->
     rows ≡ₚ rows0 ++ [[0; 0; dp; dw; 0]%Z]) /\
    ((forall word prons wid,
        (word, prons) ∈ lex -> word2id !! word = Some wid -> wid = 0%Z) ->
     rows = rows0).
Proof.
  intros Hrows.
  apply lexicon_to_fst_no_sil_unfold in Hrows
    as (st & extra & Hst & (dp & dw & ss & Hdp & Hdw & Hnd & Hss & ->) & ->).
  exists (sorted_by_src (arcs st ++ closing_rows (next_state st))), dp, dw.
  split; [by apply without_self_loops|]. split; [done|]. split; [done|].
  destruct (loop_states lex token2id word2id st ss Hst Hnd Hss)
    as [[Hex ->]|[Hall ->]]; split.
  - intros _. rewrite !sorted_by_src_perm, <-!app_assoc.
    apply Permutation_app_head, Permutation_app_comm.
  - intros Hall. destruct Hex as (word & prons & wid & Hin & Hw & Hne).
    by destruct (Hne (Hall word prons wid Hin Hw)).
  - intros (word & prons & wid & Hin & Hw & Hne).
    by destruct (Hne (Hall word prons wid Hin Hw)).
  - done.
Qed.

Lemma self_loop_on_loop_state_only_witness :
  exists rows0 dp dw,
    lexicon_to_fst_no_sil lexicon_C token2id_D word2id_D false = Ok rows0 /\
    token2id_D !! "#0" = Some dp /\ word2id_D !! "#0" = Some dw /\
    ((exists word prons wid,
        (word, prons) ∈ lexicon_C /\ word2id_D !! word = Some wid /\
        wid <> 0%Z) ->
     [[0; 1; 1; 1; 0]; [0; 0; 4; 2; 0]; [0; 3; -1; -1; 0]; [1; 2; 2; 0; 0];
      [2; 0; 3; 0; 0]; [3]]%Z ≡ₚ rows0 ++ [[0; 0; dp; dw; 0]%Z]) /\
    ((forall word prons wid,
        (word, prons) ∈ lexicon_C -> word2id_D !! word = Some wid ->
        wid = 0%Z) ->
     [[0; 1; 1; 1; 0]; [0; 0; 4; 2; 0]; [0; 3; -1; -1; 0]; [1; 2; 2; 0; 0];
      [2; 0; 3; 0; 0]; [3]]%Z = rows0).
Proof.
  apply (self_loop_on_loop_state_only lexicon_C token2id_D word2id_D).
  vm_compute. reflexivity.
Defined.

(** X12.  The size of the result.  The final state is 1 + the number of
    tokens of the lexicon - the number of its entries, and it is the last
    row; without self-loops there are as many rows as tokens, plus two;
    self-loops add at most one row. *)
Theorem size_of_fst (lex : Lexicon) (token2id word2id : gmap string Z)
    (need_self_loops : bool) (rows : list (list Z)) :
  lexicon_to_fst_no_sil lex token2id word2id need_self_loops = Ok rows ->
  last rows
  = Some [(1 + Z.of_nat (total_tokens lex) - Z.of_nat (length lex))%Z] /\
  (need_self_loops = false -> length rows = total_tokens lex + 2) /\
  total_tokens lex + 2 <= length rows <= total_tokens lex + 3.
Proof.
  intros (st & extra & Hst & Hextra & ->)%rows_final_last.
  pose proof Hst as (_ & _ & entries & Hres & Harcs & Hnext)%lexicon_arcs_spec.
  destruct (fst_ref_sizes lex token2id word2id 1 entries Hres) as [Hlen Hfin].
  rewrite last_snoc, Hnext, Hfin. split; [done|].
  rewrite length_app, (Permutation_length (sorted_by_src_perm _)).
  rewrite !length_app, Harcs, Hlen. cbn [length].
  destruct need_self_loops.
  - destruct Hextra as (dp & dw & ss & _ & _ & Hnd & Hss & ->).
    rewrite length_map.
    destruct (loop_states lex token2id word2id st ss Hst Hnd Hss)
      as [[_ ->]|[_ ->]]; simpl; split; (done || lia).
  - subst extra. simpl. split; [lia | lia].
Qed.

Lemma size_of_fst_witness :
  last [[0; 1; 1; 1; 0]; [0; 3; -1; -1; 0]; [1; 2; 2; 0; 0]; [2; 0; 3; 0; 0];
        [3]]%Z
  = Some [(1 + Z.of_nat (total_tokens lexicon_C)
           - Z.of_nat (length lexicon_C))%Z] /\
  (false = false ->
   length [[0; 1; 1; 1; 0]; [0; 3; -1; -1; 0]; [1; 2; 2; 0; 0];
           [2; 0; 3; 0; 0]; [3]]%Z = total_tokens lexicon_C + 2) /\
  total_tokens lexicon_C + 2
  <= length [[0; 1; 1; 1; 0]; [0; 3; -1; -1; 0]; [1; 2; 2; 0; 0];
             [2; 0; 3; 0; 0]; [3]]%Z
  <= total_tokens lexicon_C + 3.
Proof.
  apply (size_of_fst lexicon_C token2id_C word2id_C false).
  vm_compute. reflexivity.
Defined.

(** X13.  Every entry of the lexicon is spelled by a path of the result:
    arcs of the returned rows that lead from the loop state back to the
    loop state, one per token, whose input labels are the ids of the
    tokens in order and whose output labels are the id of the word
    followed by epsilons. *)
Theorem entry_has_path (lex : Lexicon) (token2id word2id : gmap string Z)
    (need_self_loops : bool) (rows : list (list Z)) (word : string)
    (prons : list string) :
  lexicon_to_fst_no_sil lex token2id word2id need_self_loops = Ok rows ->
  (word, prons) ∈ lex ->
  exists wid chain,
    word2id !! word = Some wid /\
    is_path loop_state chain loop_state /\
    Forall (fun arc => arc ∈ rows) chain /\
    Forall2 (fun sym arc => token2id !! sym = Some (ilabel_of arc))
            prons chain /\
    olabel_of <$> chain = wid :: replicate (length prons - 1) eps.
Proof.
  intros (st & extra & Hst & _ & ->)%lexicon_to_fst_no_sil_unfold Hin.
  apply lexicon_arcs_spec in Hst as (_ & _ & entries & Hres & Harcs & _).
  destruct (fst_ref_chain lex token2id word2id 1 entries word prons Hres Hin)
    as (wid & ids & next & (Hne & Hw & Hids) & Hsub).
  assert (ids <> []) as Hne'.
  { pose proof (Forall2_length _ _ _ Hids). by destruct prons, ids. }
  destruct (chain_ref_path loop_state next wid ids Hne') as (Hp & Hi & Ho).
  exists wid, (chain_ref loop_state next wid ids).
  split; [done|]. split; [done|]. split; [|split].
  - apply Forall_forall. intros arc Harc.
    rewrite sorted_by_src_perm, Harcs. apply elem_of_app. left.
    by apply Hsub.
  - rewrite <-Hi in Hids. by apply Forall2_fmap_r in Hids.
  - rewrite Ho. by rewrite (Forall2_length _ _ _ Hids).
Qed.

Lemma entry_has_path_witness :
  exists wid chain,
    word2id_C !! "CAT" = Some wid /\
    is_path loop_state chain loop_state /\
    Forall (fun arc => arc ∈ [[0; 1; 1; 1; 0]; [0; 3; -1; -1; 0];
                              [1; 2; 2; 0; 0]; [2; 0; 3; 0; 0]; [3]]%Z)
           chain /\
    Forall2 (fun sym arc => token2id_C !! sym = Some (ilabel_of arc))
            ["k"; "a"; "t"] chain /\
    olabel_of <$> chain = wid :: replicate (length ["k"; "a"; "t"] - 1) eps.
Proof.
  apply (entry_has_path lexicon_C token2id_C word2id_C false).
  - vm_compute. reflexivity.
  - by left.
Defined.

(** X14.  No state is shared between pronunciations.  In the arcs of the
    result, every state from 1 up to the final state is entered by
    exactly one arc, every state from 1 up to the one before the final
    state is left by exactly one arc, and no arc leaves the final
    state. *)
Theorem states_used_once (lex : Lexicon) (token2id word2id : gmap string Z)
    (need_self_loops : bool) (rows : list (list Z)) :
  lexicon_to_fst_no_sil lex token2id word2id need_self_loops = Ok rows ->
  exists body final_state,
    rows = body ++ [[final_state]] /\
    filter (fun s => s <> 0%Z) (dst_of <$> body) ≡ₚ seqZ 1 final_state /\
    filter (fun s => s <> 0%Z) (row_key <$> body)
    ≡ₚ seqZ 1 (final_state - 1).
Proof.
  intros (st & extra & Hst & Hextra & ->)%rows_final_last.
  eexists _, _. split; [reflexivity|].
  assert (Forall (fun arc => dst_of arc = 0%Z /\ row_key arc = 0%Z) extra)
    as Hloops.
  { destruct need_self_loops; [|subst extra; constructor].
    destruct Hextra as (dp & dw & ss & _ & _ & Hnd & Hss & ->).
    destruct (loop_states lex token2id word2id st ss Hst Hnd Hss)
      as [[_ ->]|[_ ->]]; repeat constructor. }
  assert (forall (f : list Z -> Z) (l : list (list Z)),
            Forall (fun arc => f arc = 0%Z) l ->
            filter (fun s => s <> 0%Z) (f <$> l) = []) as Hnil.
  { clear. intros f l Hf. induction Hf as [|arc l Ha _ IH]; [done|].
    rewrite fmap_cons, filter_cons, decide_False by (rewrite Ha; tauto).
    exact IH. }
  pose proof Hst as (_ & _ & entries & Hres & Harcs & Hnext)%lexicon_arcs_spec.
  destruct (fst_ref_states lex token2id word2id 1 entries Hres) as [Hd Hs];
    [lia|].
  pose proof (state_after_ge 1 entries) as Hge.
  rewrite !sorted_by_src_perm, !fmap_app, !filter_app, Harcs, Hd, Hs.
  rewrite (Hnil dst_of), (Hnil row_key)
    by (eapply Forall_impl; [done|]; by intros ? [? ?]).
  rewrite Hnext. split.
  - simpl. rewrite filter_cons, decide_True, filter_nil.
    2:{ change (dst_of _) with (state_after 1 entries). lia. }
    change (dst_of _) with (state_after 1 entries).
    replace (state_after 1 entries)
      with (state_after 1 entries - 1 + 1)%Z at 3 by lia.
    rewrite seqZ_app by lia.
    by replace (1 + (state_after 1 entries - 1))%Z
      with (state_after 1 entries) by lia.
  - simpl. rewrite filter_cons, decide_False, filter_nil, app_nil_r; [done|].
    unfold row_key, loop_state. simpl. tauto.
Qed.

Lemma states_used_once_witness :
  exists body final_state,
    [[0; 1; 1; 1; 0]; [0; 0; 4; 2; 0]; [0; 3; -1; -1; 0]; [1; 2; 2; 0; 0];
     [2; 0; 3; 0; 0]; [3]]%Z = body ++ [[final_state]] /\
    filter (fun s => s <> 0%Z) (dst_of <$> body) ≡ₚ seqZ 1 final_state /\
    filter (fun s => s <> 0%Z) (row_key <$> body)
    ≡ₚ seqZ 1 (final_state - 1).
Proof.
  apply (states_used_once lexicon_C token2id_D word2id_D true).
  vm_compute. reflexivity.
Defined.

(** * Properties of add_self_loops *)

(** X15.  add_self_loops unpacks every row into five items: it returns
    exactly when every row has five items, and raises ValueError exactly
    when some row does not, as the final-state row of a finished automaton
    does not. *)
Theorem add_self_loops_outcome (arcs : list (list Z)) (dp dw : Z) :
  ((exists res, add_self_loops arcs dp dw = Ok res) <->
   Forall (fun arc => length arc = 5) arcs) /\
  (add_self_loops arcs dp dw = Raise ValueError <->
   Exists (fun arc => length arc <> 5) arcs).
Proof.
  destruct (decide (Forall (fun arc => length arc = 5) arcs)) as [Hall|Hnall].
  - destruct (add_self_loops_ok arcs dp dw Hall) as [res Hres].
    rewrite Hres. split.
    + split; [done | by eexists].
    + split; [done|]. intros Hex. exfalso.
      apply Exists_exists in Hex as (arc & Hin & Hlen).
      rewrite Forall_forall in Hall. by apply Hlen, Hall.
  - apply not_Forall_Exists in Hnall; [|apply _].
    rewrite (add_self_loops_raise arcs dp dw Hnall). split.
    + split; [by intros [? ?]|]. intros Hall. exfalso.
      apply Exists_exists in Hnall as (arc & Hin & Hlen).
      rewrite Forall_forall in Hall. by apply Hlen, Hall.
    + done.
Qed.

(** X16.  Whatever the order in which the set of states is iterated,
    what add_self_loops returns starts with the arcs it was given,
    unchanged and in order; what follows is one self-loop
    [(s, s, disambig_phone, disambig_word, 0)] for each state [s] that is
    the source of a given arc with a non-zero output label: every such
    state gets its loop, no other state gets one, and no state gets two.
    So the result is at most twice as long, and it is the input itself
    exactly when every arc puts out epsilon.  The order of the self-loops
    among themselves is that of the iteration, and is left open. *)
Theorem add_self_loops_result (order : gset Z -> list Z)
  (arcs res : list (list Z)) (dp dw : Z) :
  (forall states, order states ≡ₚ elements states) ->
  add_self_loops_in order arcs dp dw = Ok res ->
  exists ss : list Z,
    res = arcs ++ map (fun s => [s; s; dp; dw; 0%Z]) ss /\
    NoDup ss /\
    (forall s, s ∈ ss <->
               exists arc, arc ∈ arcs /\ row_key arc = s /\
                           olabel_of arc <> 0%Z) /\
    length res <= 2 * length arcs /\
    (res = arcs <-> Forall (fun arc => olabel_of arc = 0%Z) arcs).
Proof.
  intros Horder Hres.
  apply (add_self_loops_in_spec order _ _ _ _ Horder) in Hres
    as (ss & Hnd & Hss & ->).
  exists ss. split; [done|]. split; [done|]. split; [|split].
  - exact Hss.
  - rewrite length_app, length_map.
    assert (length ss <= length (row_key <$> arcs)) as Hle.
    { apply submseteq_length, NoDup_submseteq; [done|].
      intros s Hs. by apply emits_source, Hss. }
    rewrite length_fmap in Hle. lia.
  - rewrite emits_none. split.
    + intros Heq s Hs. apply Hss in Hs.
      rewrite <-(app_nil_r arcs) in Heq at 2.
      apply app_inv_head in Heq. destruct ss; [by apply elem_of_nil in Hs|].
      discriminate Heq.
    + intros Hno. destruct ss as [|s ss]; [by rewrite app_nil_r|].
      exfalso. apply (Hno s), Hss. by left.
Qed.

Lemma add_self_loops_result_witness :
  exists ss : list Z,
    [[0; 1; 1; 1; 0]; [1; 2; 2; 0; 0]; [2; 0; 3; 5; 0];
     [0; 0; 4; 2; 0]; [2; 2; 4; 2; 0]]%Z
    = [[0; 1; 1; 1; 0]; [1; 2; 2; 0; 0]; [2; 0; 3; 5; 0]]%Z
      ++ map (fun s => [s; s; 4; 2; 0]%Z) ss /\
    NoDup ss /\
    (forall s, s ∈ ss <->
               exists arc,
                 arc ∈ [[0; 1; 1; 1; 0]; [1; 2; 2; 0; 0]; [2; 0; 3; 5; 0]]%Z /\
                 row_key arc = s /\ olabel_of arc <> 0%Z) /\
    length [[0; 1; 1; 1; 0]; [1; 2; 2; 0; 0]; [2; 0; 3; 5; 0];
            [0; 0; 4; 2; 0]; [2; 2; 4; 2; 0]]%Z
    <= 2 * length [[0; 1; 1; 1; 0]; [1; 2; 2; 0; 0]; [2; 0; 3; 5; 0]]%Z /\
    ([[0; 1; 1; 1; 0]; [1; 2; 2; 0; 0]; [2; 0; 3; 5; 0];
      [0; 0; 4; 2; 0]; [2; 2; 4; 2; 0]]%Z
     = [[0; 1; 1; 1; 0]; [1; 2; 2; 0; 0]; [2; 0; 3; 5; 0]]%Z <->
     Forall (fun arc => olabel_of arc = 0%Z)
            [[0; 1; 1; 1; 0]; [1; 2; 2; 0; 0]; [2; 0; 3; 5; 0]]%Z).
Proof.
  apply (add_self_loops_result ascending
           [[0; 1; 1; 1; 0]; [1; 2; 2; 0; 0]; [2; 0; 3; 5; 0]]%Z _ 4 2).
  - intros states. apply merge_sort_Permutation.
  - vm_compute. reflexivity.
Defined.

(** * Properties of generate_id_map *)

(** X17.  For a list of distinct symbols, generate_id_map numbers them by
    position: its items are the symbols in order, each with its index, and
    looking a symbol up gives [i] exactly when the symbol is at place [i]
    (so different symbols get different ids, from 0 on without gaps). *)
Theorem generate_id_map_distinct (symbols : list string) :
  NoDup symbols ->
  generate_id_map symbols = imap (fun i sym => (sym, Z.of_nat i)) symbols /\
  (forall sym i,
     table_of (generate_id_map symbols) !! sym = Some (Z.of_nat i) <->
     symbols !! i = Some sym).
Proof.
  intros Hnd.
  assert (generate_id_map symbols
          = imap (fun i sym => (sym, Z.of_nat i)) symbols) as Hitems.
  { induction symbols as [|sym symbols IH] using rev_ind; [done|].
    apply NoDup_app in Hnd as (Hnd & Hnin & _).
    rewrite generate_id_map_snoc, imap_app. simpl. rewrite Nat.add_0_r.
    rewrite dict_set_new; [by rewrite IH|].
    rewrite (proj2 (generate_id_map_keys symbols)).
    intros Hin. by apply (Hnin sym Hin), list_elem_of_singleton. }
  split; [done|]. intros sym i. rewrite Hitems. unfold table_of.
  rewrite <-elem_of_list_to_map.
  - rewrite list_elem_of_lookup. split.
    + intros [j Hj]. apply list_lookup_imap_Some in Hj as (s & Hs & [= <- Hij]).
      by replace i with j by lia.
    + intros Hi. exists i. by rewrite list_lookup_imap, Hi.
  - rewrite <-Hitems. apply generate_id_map_keys.
Qed.

Lemma generate_id_map_distinct_witness :
  generate_id_map ["<eps>"; "CAT"; "CATS"]
  = imap (fun i sym => (sym, Z.of_nat i)) ["<eps>"; "CAT"; "CATS"] /\
  (forall sym i,
     table_of (generate_id_map ["<eps>"; "CAT"; "CATS"]) !! sym
     = Some (Z.of_nat i) <->
     ["<eps>"; "CAT"; "CATS"] !! i = Some sym).
Proof.
  apply (generate_id_map_distinct ["<eps>"; "CAT"; "CATS"]).
  repeat (apply NoDup_cons; split;
          [intros Hin; repeat (apply elem_of_cons in Hin as [Hin|Hin];
                               [discriminate Hin|]);
           by apply elem_of_nil in Hin|]).
  apply NoDup_nil_2.
Defined.

(** X18.  When a symbol is listed more than once, its last place wins:
    looking it up gives the index of its last occurrence, and the earlier
    indices are ids of no symbol.  Every listed symbol is a key, once, and
    a symbol that is not listed raises KeyError. *)
Theorem generate_id_map_last_wins (symbols : list string) :
  NoDup (generate_id_map symbols).*1 /\
  (forall sym, sym ∈ (generate_id_map symbols).*1 <-> sym ∈ symbols) /\
  (forall sym, sym ∉ symbols ->
     dict_get (generate_id_map symbols) sym = Raise (KeyError sym)) /\
  (forall sym i,
     dict_get (generate_id_map symbols) sym = Ok (Z.of_nat i) <->
     symbols !! i = Some sym /\
     forall j, i < j -> symbols !! j <> Some sym).
Proof.
  destruct (generate_id_map_keys symbols) as [Hnd Hkeys].
  split; [done|]. split; [done|]. split.
  - intros sym Hnin. apply dict_get_missing. by rewrite Hkeys.
  - clear Hnd Hkeys.
    induction symbols as [|s symbols IH] using rev_ind; intros sym i.
    + simpl. split; [done | by intros [? _]].
    + rewrite generate_id_map_snoc, dict_get_set.
      destruct (decide (s = sym)) as [->|Hne].
      * split.
        { intros [= Hi%Nat2Z.inj]. subst i. split.
          - by rewrite lookup_app_r, Nat.sub_diag by lia.
          - intros j Hj Hsome. apply lookup_lt_Some in Hsome.
            rewrite length_app in Hsome. simpl in Hsome. lia. }
        intros [Hi Hlast]. f_equal. f_equal.
        pose proof (lookup_lt_Some _ _ _ Hi) as Hlt.
        rewrite length_app in Hlt. simpl in Hlt.
        destruct (decide (i = length symbols)) as [|Hil]; [done|]. exfalso.
        apply (Hlast (length symbols)); [lia|].
        by rewrite lookup_app_r, Nat.sub_diag by lia.
      * rewrite IH. split.
        { intros [Hi Hlast]. pose proof (lookup_lt_Some _ _ _ Hi) as Hlt.
          split; [by rewrite lookup_app_l|].
          intros j Hj Hsome.
          destruct (decide (j < length symbols)) as [Hjl|Hjl].
          - rewrite lookup_app_l in Hsome by done. by apply (Hlast j).
          - rewrite lookup_app_r in Hsome by lia.
            apply list_lookup_singleton_Some in Hsome as [_ ?]. done. }
        intros [Hi Hlast].
        assert (i < length symbols) as Hlt.
        { destruct (decide (i < length symbols)) as [|Hge]; [done|].
          rewrite lookup_app_r in Hi by lia.
          apply list_lookup_singleton_Some in Hi as [_ ?]. done. }
        rewrite lookup_app_l in Hi by done. split; [done|].
        intros j Hj Hsome. apply (Hlast j Hj).
        pose proof (lookup_lt_Some _ _ _ Hsome).
        by rewrite lookup_app_l.
Qed.

(** * Properties of write_lexicon and write_mapping *)

(** X19.  The text write_lexicon writes reads back by splitting at
    whitespace: when the words and the tokens are non-empty and free of
    whitespace, the line of an entry splits into the word followed by its
    tokens, and the whole text into the words and tokens of all entries in
    order.  (An entry without tokens gives a line with the word alone.) *)
Theorem write_lexicon_reads_back (lex : Lexicon) :
  Forall (fun e : string * list string =>
            token_ok e.1 = true /\ Forall (fun t => token_ok t = true) e.2)
         lex ->
  Forall (fun e : string * list string => split (entry_line e) = e.1 :: e.2)
         lex /\
  split (write_lexicon lex)
  = concat (map (fun e : string * list string => e.1 :: e.2) lex).
Proof.
  assert (forall (e : string * list string) rest,
            token_ok e.1 = true -> Forall (fun t => token_ok t = true) e.2 ->
            split (entry_line e +:+ rest) = (e.1 :: e.2) ++ split rest)
    as Hline.
  { intros [w p] rest Hw Hp. simpl in *. unfold entry_line.
    rewrite split_line, (split_token w Hw), (split_join p Hp). done. }
  intros Hall. split.
  - eapply Forall_impl; [done|]. intros e [Hw Hp]. simpl.
    rewrite <-(append_empty_r (entry_line e)), Hline by done.
    by rewrite app_nil_r.
  - induction Hall as [|e lex [Hw Hp] _ IH]; [done|].
    rewrite write_lexicon_cons, Hline by done. simpl. by rewrite IH.
Qed.

Lemma write_lexicon_reads_back_witness :
  Forall (fun e : string * list string => split (entry_line e) = e.1 :: e.2)
         lexicon_B /\
  split (write_lexicon lexicon_B)
  = concat (map (fun e : string * list string => e.1 :: e.2) lexicon_B).
Proof.
  apply (write_lexicon_reads_back lexicon_B).
  repeat constructor.
Defined.

(** X20.  The text write_mapping writes reads back in the same way: when
    the symbols are non-empty and free of whitespace, the text splits at
    whitespace into each symbol followed by the decimal text of its id, in
    the order of the dict; a negative id is written with its sign. *)
Theorem write_mapping_reads_back (sym2id : list (string * Z)) :
  Forall (fun item : string * Z => token_ok item.1 = true) sym2id ->
  split (write_mapping sym2id)
  = concat (map (fun item : string * Z => [item.1; pretty item.2]) sym2id).
Proof.
  induction 1 as [|[sym i] d Hsym _ IH]; [done|].
  rewrite write_mapping_cons. unfold mapping_line. simpl in *.
  rewrite split_line, (split_token sym Hsym),
    (split_token _ (pretty_Z_ok i)), IH. done.
Qed.

Lemma write_mapping_reads_back_witness :
  split (write_mapping [("<eps>", 0%Z); ("CAT", 1%Z); ("x", (-1)%Z)])
  = concat (map (fun item : string * Z => [item.1; pretty item.2])
                [("<eps>", 0%Z); ("CAT", 1%Z); ("x", (-1)%Z)]).
Proof.
  apply (write_mapping_reads_back
           [("<eps>", 0%Z); ("CAT", 1%Z); ("x", (-1)%Z)]).
  repeat constructor.
Defined.

(** X21.  write_mapping after generate_id_map: for distinct symbols that
    are non-empty and free of whitespace, the text written for the
    generated map lists the symbols in their order, each followed by its
    position. *)
Theorem write_generated_mapping (symbols : list string) :
  NoDup symbols ->
  Forall (fun sym => token_ok sym = true) symbols ->
  split (write_mapping (generate_id_map symbols))
  = concat (imap (fun i sym => [sym; pretty (Z.of_nat i)]) symbols).
Proof.
  intros Hnd Hok. rewrite (generate_id_map_items symbols Hnd).
  assert (forall (f : nat -> Z) (l : list string),
            Forall (fun sym => token_ok sym = true) l ->
            split (write_mapping (imap (fun i sym => (sym, f i)) l))
            = concat (imap (fun i sym => [sym; pretty (f i)]) l)) as Hgen.
  { clear. intros f l Hl. revert f.
    induction Hl as [|sym l Hsym _ IH]; intros f; [done|].
    cbn [imap concat]. rewrite write_mapping_cons. unfold mapping_line.
    rewrite split_line, (split_token sym Hsym),
      (split_token _ (pretty_Z_ok (f 0))).
    simpl. do 2 f_equal. apply (IH (f ∘ S)). }
  by apply (Hgen Z.of_nat).
Qed.

Lemma write_generated_mapping_witness :
  split (write_mapping (generate_id_map ["<eps>"; "CAT"]))
  = concat (imap (fun i sym => [sym; pretty (Z.of_nat i)]) ["<eps>"; "CAT"]).
Proof.
  apply (write_generated_mapping ["<eps>"; "CAT"]).
  - repeat (apply NoDup_cons; split;
            [intros Hin; repeat (apply elem_of_cons in Hin as [Hin|Hin];
                                 [discriminate Hin|]);
             by apply elem_of_nil in Hin|]).
    apply NoDup_nil_2.
  - repeat constructor.
Defined.

(** * Properties of generate_lexicon and of main *)

(** X22.  The fallback entry [("<UNK>", ["<unk>"])] that generate_lexicon
    puts last gives the automaton an arc from the loop state to itself
    whose input label is 0, the id the builder requires of [<unk>], and
    whose output label is the id of [<UNK>]: whatever the words and their
    pieces are. *)
Theorem fallback_arc (encode : list string -> list (list string))
    (words : list string) (token2id word2id : gmap string Z)
    (need_self_loops : bool) (rows : list (list Z)) :
  lexicon_to_fst_no_sil (generate_lexicon encode words) token2id word2id
                        need_self_loops = Ok rows ->
  exists wid,
    word2id !! "<UNK>" = Some wid /\
    [loop_state; loop_state; 0; wid; 0]%Z ∈ rows.
Proof.
  intros (st & extra & Hst & _ & ->)%lexicon_to_fst_no_sil_unfold.
  apply lexicon_arcs_spec in Hst as (Hunk & _ & entries & Hres & Harcs & _).
  destruct (fst_ref_chain _ token2id word2id 1 entries "<UNK>" ["<unk>"] Hres)
    as (wid & ids & next & (_ & Hw & Hids) & Hsub).
  { rewrite generate_lexicon_zip. apply elem_of_app. right. by left. }
  apply Forall2_cons_inv_l in Hids as (i & ids' & Hi & Hnil & ->).
  apply Forall2_nil_inv_l in Hnil as ->.
  assert (i = 0%Z) as -> by congruence.
  exists wid. split; [done|].
  rewrite sorted_by_src_perm, Harcs. apply elem_of_app. left.
  apply Hsub. by left.
Qed.

Lemma fallback_arc_witness :
  exists wid,
    (<["<UNK>" := 2%Z]> word2id_C) !! "<UNK>" = Some wid /\
    [loop_state; loop_state; 0; wid; 0]%Z
    ∈ [[0; 1; 1; 1; 0]; [0; 0; 0; 2; 0]; [0; 3; -1; -1; 0]; [1; 2; 2; 0; 0];
       [2; 0; 3; 0; 0]; [3]]%Z.
Proof.
  apply (fallback_arc (fun _ => [["k"; "a"; "t"]]) ["CAT"] token2id_C
           (<["<UNK>" := 2%Z]> word2id_C) false).
  vm_compute. reflexivity.
Defined.

(** X23.  The loop of main that takes the excluded words out: on a word
    list without repetitions it leaves exactly the words that are not
    excluded, in their order. *)
Theorem remove_words_filter (excl words : list string) :
  NoDup words ->
  remove_words excl words = filter (fun w => w ∉ excl) words.
Proof.
  unfold remove_words. revert words.
  induction excl as [|w excl IH]; intros words Hnd; simpl.
  - symmetry. apply filter_all, Forall_forall. intros x _.
    apply not_elem_of_nil.
  - assert ((if decide (w ∈ words) then list_remove w words else words)
            = filter (fun x => x <> w) words) as ->.
    { destruct (decide (w ∈ words)) as [Hin|Hnin].
      - by apply list_remove_filter.
      - symmetry. apply filter_all, Forall_forall. by intros x Hx ->. }
    rewrite IH by by apply NoDup_filter.
    rewrite list_filter_filter. apply list_filter_iff.
    intros x. rewrite not_elem_of_cons. tauto.
Qed.

Lemma remove_words_filter_witness :
  remove_words excluded ["<eps>"; "CAT"; "<UNK>"; "DOG"; "#0"]
  = filter (fun w => w ∉ excluded) ["<eps>"; "CAT"; "<UNK>"; "DOG"; "#0"].
Proof.
  apply (remove_words_filter excluded
           ["<eps>"; "CAT"; "<UNK>"; "DOG"; "#0"]).
  repeat (apply NoDup_cons; split;
          [intros Hin; repeat (apply elem_of_cons in Hin as [Hin|Hin];
                               [discriminate Hin|]);
           by apply elem_of_nil in Hin|]).
  apply NoDup_nil_2.
Defined.


(** X25.  The two steps of main fit together: if the builder accepts the
    lexicon with some tables, and the token table also holds the symbols
    #0 .. #max_disambig and the word table holds #0, then the builder
    accepts the disambiguated lexicon with self-loops, for a lexicon of
    well-formed tokens. *)
Theorem disambiguated_lexicon_builds (lex out : Lexicon) (m : nat)
    (token2id word2id : gmap string Z) (rows : list (list Z)) :
  lexicon_ok lex = true ->
  add_disambig_symbols lex = Ok (out, m) ->
  lexicon_to_fst_no_sil lex token2id word2id false = Ok rows ->
  (forall k, k <= m -> is_Some (token2id !! disambig_symbol k)) ->
  is_Some (word2id !! "#0") ->
  exists rows',
    lexicon_to_fst_no_sil out token2id word2id true = Ok rows'.
Proof.
  intros Hok Hrun Hrows Hsym Hw0.
  apply lexicon_to_fst_no_sil_known in Hrows as (Hunk & Heps & Hlex).
  apply lexicon_to_fst_no_sil_ok; [done | done | | ].
  - apply (result_known lex out m); [done..|].
    intros k Hk. apply Hsym. lia.
  - intros _. split; [|done]. apply (Hsym 0). lia.
Qed.

Lemma disambiguated_lexicon_builds_witness :
  exists rows',
    lexicon_to_fst_no_sil [("A", ["a"; "#1"]); ("B", ["a"; "#2"])]
      (<["#0" := 4%Z]> (<["#1" := 5%Z]> (<["#2" := 6%Z]> token2id_C)))
      (<["#0" := 4%Z]> (<["A" := 2%Z]> (<["B" := 3%Z]> word2id_C)))
      true = Ok rows'.
Proof.
  eapply (disambiguated_lexicon_builds lexicon_A _ 2).
  - reflexivity.
  - vm_compute. reflexivity.
  - vm_compute. reflexivity.
  - intros k Hk.
    assert (k = 0 \/ k = 1 \/ k = 2) as [-> | [-> | ->]] by lia;
      by eexists.
  - by eexists.
Defined.
